(** * The carousel of [script.js] as a timed, event-driven state machine

    The page script defines one stateful component, [class Carousel], and a
    debounced window-resize listener.  This development embeds both:

    - the browser's timer table ([setTimeout], [setInterval], [clearTimeout],
      [clearInterval]) as a finite map from handles to pending callbacks, with
      a millisecond clock;
    - the fields of a [Carousel] object and the DOM properties it writes
      (track transform, indicator classes/attributes, button states);
    - the closure variables of [addTouchSupport];
    - every method of the class as a state-passing function;
    - every listener registered by [init] and by the resize block as a case
      of a partial step function on pages.

    Numbers are JavaScript numbers holding integers (indices, pixel
    coordinates, milliseconds); they are modelled as [Z]. *)

From stdpp Require Import gmap strings list fin_maps.
From Stdlib Require Import ZArith Lia.

Local Open Scope Z_scope.

(* ===================================================================== *)
(** ** Browser timers *)
(* ===================================================================== *)

(** The three closures this script ever hands to a timer. *)
Inductive Callback : Type :=
| UnlockAnimation   (* () => { this.isAnimating = false; }        line 106 *)
| AutoplayTick      (* the arrow function of startAutoplay        line 177 *)
| ResizeSync.       (* the arrow function of the resize listener  line 484 *)

Record Timer : Type := mkTimer {
  due : Z;                 (* earliest clock value at which it may run *)
  period : option Z;       (* [Some d] for setInterval, [None] for setTimeout *)
  callback : Callback
}.

(** Timer handles are the positive integers returned by [setTimeout] and
    [setInterval]; both draw from one pool and either [clear] function
    removes either kind. *)
Record Browser : Type := mkBrowser {
  now : Z;
  nextId : positive;
  timers : gmap positive Timer
}.

Definition setTimer (cb : Callback) (delay : Z) (rep : bool) (b : Browser)
  : positive * Browser :=
  (nextId b,
   {| now := now b;
      nextId := Pos.succ (nextId b);
      timers := <[nextId b := {| due := now b + delay;
                                 period := if rep then Some delay else None;
                                 callback := cb |}]> (timers b) |}).

Definition setTimeout (cb : Callback) (delay : Z) : Browser -> positive * Browser :=
  setTimer cb delay false.

Definition setInterval (cb : Callback) (delay : Z) : Browser -> positive * Browser :=
  setTimer cb delay true.

Definition clearTimer (id : positive) (b : Browser) : Browser :=
  {| now := now b; nextId := nextId b; timers := delete id (timers b) |}.

Definition clearTimeout := clearTimer.
Definition clearInterval := clearTimer.

(** What the event loop does once a timer's handler has returned: a handle
    cleared by the handler is left alone, an interval is re-armed, a timeout
    is dropped. *)
Definition settle (id : positive) (b : Browser) : Browser :=
  match timers b !! id with
  | None => b
  | Some t =>
      match period t with
      | Some d =>
          {| now := now b; nextId := nextId b;
             timers := <[id := {| due := now b + d; period := Some d;
                                  callback := callback t |}]> (timers b) |}
      | None => clearTimer id b
      end
  end.

Definition advance (dt : Z) (b : Browser) : Browser :=
  {| now := now b + dt; nextId := nextId b; timers := timers b |}.

(** Number of live timers carrying a given callback. *)
Definition is_callback (cb : Callback) (t : Timer) : bool :=
  match cb, callback t with
  | UnlockAnimation, UnlockAnimation => true
  | AutoplayTick, AutoplayTick => true
  | ResizeSync, ResizeSync => true
  | _, _ => false
  end.

Definition live (cb : Callback) (b : Browser) : list positive :=
  omap (fun kt : positive * Timer =>
          if is_callback cb kt.2 then Some kt.1 else None)
       (map_to_list (timers b)).

(* ===================================================================== *)
(** ** The Carousel object and the DOM it writes *)
(* ===================================================================== *)

(** [setAttribute(name, b)] stores the string form of the boolean. *)
Definition attr (b : bool) : string := if b then "true" else "false".

(** A [.carousel-indicator] element: whether its class list holds
    ['active'], and its [aria-selected] attribute. *)
Record Indicator : Type := mkIndicator {
  active : bool;
  aria_selected : string
}.

(** A navigation button: its [disabled] property and [aria-disabled]
    attribute. *)
Record Button : Type := mkButton {
  disabled : bool;
  aria_disabled : string
}.

(** The elements the constructor looks up in the container.
    [track_offset] is the number [p] of [track.style.transform =
    `translateX(p%)`]. *)
Record Dom : Type := mkDom {
  track_offset : Z;
  indicators : list Indicator;
  prevButton : Button;
  nextButton : Button
}.

(** The fields of a [Carousel] instance.  [slides_length] is
    [this.slides.length]. *)
Record Carousel : Type := mkCarousel {
  dom : Dom;
  slides_length : nat;
  currentIndex : Z;
  isAnimating : bool;
  autoplayInterval : option positive;
  autoplayDelay : Z
}.

Definition set_dom (d : Dom) (c : Carousel) : Carousel :=
  {| dom := d; slides_length := slides_length c;
     currentIndex := currentIndex c; isAnimating := isAnimating c;
     autoplayInterval := autoplayInterval c;
     autoplayDelay := autoplayDelay c |}.

Definition set_currentIndex (i : Z) (c : Carousel) : Carousel :=
  {| dom := dom c; slides_length := slides_length c;
     currentIndex := i; isAnimating := isAnimating c;
     autoplayInterval := autoplayInterval c;
     autoplayDelay := autoplayDelay c |}.

Definition set_isAnimating (a : bool) (c : Carousel) : Carousel :=
  {| dom := dom c; slides_length := slides_length c;
     currentIndex := currentIndex c; isAnimating := a;
     autoplayInterval := autoplayInterval c;
     autoplayDelay := autoplayDelay c |}.

Definition set_autoplayInterval (h : option positive) (c : Carousel) : Carousel :=
  {| dom := dom c; slides_length := slides_length c;
     currentIndex := currentIndex c; isAnimating := isAnimating c;
     autoplayInterval := h;
     autoplayDelay := autoplayDelay c |}.

(** Methods run against the instance and the timer table together.
    [calls] is instrumentation, absent from the source: the arguments of
    every [updateCarousel] invocation, most recent first. *)
Record World : Type := mkWorld {
  browser : Browser;
  carousel : Carousel;
  calls : list (Z * bool)
}.

Definition set_browser (b : Browser) (w : World) : World :=
  {| browser := b; carousel := carousel w; calls := calls w |}.

Definition set_carousel (c : Carousel) (w : World) : World :=
  {| browser := browser w; carousel := c; calls := calls w |}.

Definition record_call (i : Z) (animate : bool) (w : World) : World :=
  {| browser := browser w; carousel := carousel w;
     calls := (i, animate) :: calls w |}.

(** [this.slides.length - 1] *)
Definition lastIndex (c : Carousel) : Z := Z.of_nat (slides_length c) - 1.

(** Lines 114-122. *)
Definition updateButtonStates (c : Carousel) : Carousel :=
  let first := currentIndex c =? 0 in
  let last := currentIndex c =? lastIndex c in
  set_dom {| track_offset := track_offset (dom c);
             indicators := indicators (dom c);
             prevButton := {| disabled := first; aria_disabled := attr first |};
             nextButton := {| disabled := last; aria_disabled := attr last |} |} c.

(** The body of the [indicators.forEach] of lines 96-99. *)
Definition mark (index : Z) (i : nat) (_ : Indicator) : Indicator :=
  {| active := Z.of_nat i =? index;
     aria_selected := attr (Z.of_nat i =? index) |}.

(** Lines 85-112.  There is no test of [index] against the slide count. *)
Definition updateCarousel (index : Z) (animate : bool) (w : World) : World :=
  let w := record_call index animate w in
  if isAnimating (carousel w) && animate then w
  else
    let c := set_currentIndex index (set_isAnimating true (carousel w)) in
    let c := set_dom {| track_offset := - index * 100;
                        indicators := imap (mark index) (indicators (dom c));
                        prevButton := prevButton (dom c);
                        nextButton := nextButton (dom c) |} c in
    let c := updateButtonStates c in
    if animate then
      set_browser (setTimeout UnlockAnimation 500 (browser w)).2
                  (set_carousel c w)
    else
      set_carousel (set_isAnimating false c) w.

(** Lines 176-184: the previous handle, if any, is overwritten, not cleared. *)
Definition startAutoplay (w : World) : World :=
  let '(id, b) := setInterval AutoplayTick (autoplayDelay (carousel w)) (browser w) in
  set_browser b (set_carousel (set_autoplayInterval (Some id) (carousel w)) w).

(** Lines 186-191. *)
Definition stopAutoplay (w : World) : World :=
  match autoplayInterval (carousel w) with
  | Some id =>
      set_browser (clearInterval id (browser w))
                  (set_carousel (set_autoplayInterval None (carousel w)) w)
  | None => w
  end.

(** Lines 193-196. *)
Definition resetAutoplay (w : World) : World := startAutoplay (stopAutoplay w).

(** Lines 124-129. *)
Definition next (w : World) : World :=
  if currentIndex (carousel w) <? lastIndex (carousel w) then
    resetAutoplay (updateCarousel (currentIndex (carousel w) + 1) true w)
  else w.

(** Lines 131-136. *)
Definition prev (w : World) : World :=
  if currentIndex (carousel w) >? 0 then
    resetAutoplay (updateCarousel (currentIndex (carousel w) - 1) true w)
  else w.

(** Lines 138-141. *)
Definition goToSlide (index : Z) (w : World) : World :=
  resetAutoplay (updateCarousel index true w).

(** The handler installed by [startAutoplay], lines 177-183. *)
Definition autoplayTick (w : World) : World :=
  if currentIndex (carousel w) <? lastIndex (carousel w) then next w
  else updateCarousel 0 true w.

(** The handler scheduled by an animated [updateCarousel], lines 106-108. *)
Definition unlockAnimation (w : World) : World :=
  set_carousel (set_isAnimating false (carousel w)) w.

(** The [keydown] listener of lines 69-72: two independent tests. *)
Definition keydown (key : string) (w : World) : World :=
  let w := if String.eqb key "ArrowLeft" then prev w else w in
  if String.eqb key "ArrowRight" then next w else w.

(* ===================================================================== *)
(** ** Touch support (lines 143-174) *)
(* ===================================================================== *)

(** The three [let] variables captured by the touch listeners. *)
Record Touch : Type := mkTouch {
  startX : Z;
  currentX : Z;
  isDragging : bool
}.

Definition initialTouch : Touch :=
  {| startX := 0; currentX := 0; isDragging := false |}.

Definition touchstart (x : Z) (t : Touch) : Touch :=
  {| startX := x; currentX := currentX t; isDragging := true |}.

Definition touchmove (x : Z) (t : Touch) : Touch :=
  if isDragging t then
    {| startX := startX t; currentX := x; isDragging := isDragging t |}
  else t.

(** [const diff = startX - currentX] *)
Definition touchDiff (t : Touch) : Z := startX t - currentX t.

Definition threshold : Z := 50.

Definition touchend (t : Touch) (w : World) : Touch * World :=
  if isDragging t then
    let diff := touchDiff t in
    let w :=
      if Z.abs diff >? threshold then
        if diff >? 0 then next w else prev w
      else w in
    ({| startX := startX t; currentX := currentX t; isDragging := false |}, w)
  else (t, w).

(* ===================================================================== *)
(** ** The page: construction, listeners, resize block *)
(* ===================================================================== *)

(** What the constructor finds under [.carousel-container]: the number of
    children of the track, the indicator elements, the two buttons. *)
Record Markup : Type := mkMarkup {
  slideElements : nat;
  indicatorElements : list Indicator;
  prevElement : Button;
  nextElement : Button
}.

(** Lines 40-54, up to the call of [init]. *)
Definition newCarousel (m : Markup) : Carousel :=
  {| dom := {| track_offset := 0;
               indicators := indicatorElements m;
               prevButton := prevElement m;
               nextButton := nextElement m |};
     slides_length := slideElements m;
     currentIndex := 0;
     isAnimating := false;
     autoplayInterval := None;
     autoplayDelay := 5000 |}.

(** Lines 56-83: the state changes of [init]; the listeners it registers
    are the cases of [widgetEvent] below. *)
Definition init (w : World) : World := startAutoplay (updateCarousel 0 false w).

(** A reference to the one [Carousel] object the page-load handler
    allocates. *)
Inductive ObjRef : Type := TheCarousel.

(** The container element with the object wired to it.  [carouselInstance]
    is the expando property that the resize block reads; [instance] and
    [touch] are the object and the closure variables captured by the
    listeners; [log] is the instrumentation of [World]. *)
Record Container : Type := mkContainer {
  carouselInstance : option ObjRef;
  instance : Carousel;
  touch : Touch;
  log : list (Z * bool)
}.

Record Page : Type := mkPage {
  page_browser : Browser;
  resizeTimer : option positive;     (* [let resizeTimer;] line 481 *)
  container : option Container       (* querySelector('.carousel-container') *)
}.

Definition initialBrowser : Browser :=
  {| now := 0; nextId := 1%positive; timers := ∅ |}.

(** The [DOMContentLoaded] handler, lines 448-456. *)
Definition load (m : option Markup) : Page :=
  match m with
  | Some mk =>
      let w := init {| browser := initialBrowser;
                       carousel := newCarousel mk;
                       calls := [] |} in
      {| page_browser := browser w;
         resizeTimer := None;
         container := Some {| carouselInstance := None;
                              instance := carousel w;
                              touch := initialTouch;
                              log := calls w |} |}
  | None =>
      {| page_browser := initialBrowser; resizeTimer := None; container := None |}
  end.

Definition worldOf (p : Page) (k : Container) : World :=
  {| browser := page_browser p; carousel := instance k; calls := log k |}.

Definition putWorld (t : Touch) (w : World) (p : Page) (k : Container) : Page :=
  {| page_browser := browser w;
     resizeTimer := resizeTimer p;
     container := Some {| carouselInstance := carouselInstance k;
                          instance := carousel w;
                          touch := t;
                          log := calls w |} |}.

Definition onWorld (f : World -> World) (p : Page) : Page :=
  match container p with
  | Some k => putWorld (touch k) (f (worldOf p k)) p k
  | None => p
  end.

(** The timeout handler of the resize block, lines 485-492. *)
Definition resizeSync (p : Page) : Page :=
  match container p with
  | Some k =>
      match carouselInstance k with
      | Some TheCarousel =>
          putWorld (touch k)
                   (updateCarousel (currentIndex (instance k)) false (worldOf p k))
                   p k
      | None => p
      end
  | None => p
  end.

(** The resize listener, lines 482-494. *)
Definition onResize (p : Page) : Page :=
  let b := match resizeTimer p with
           | Some id => clearTimeout id (page_browser p)
           | None => page_browser p
           end in
  let '(id, b) := setTimeout ResizeSync 250 b in
  {| page_browser := b; resizeTimer := Some id; container := container p |}.

Definition runCallback (cb : Callback) (p : Page) : Page :=
  match cb with
  | UnlockAnimation => onWorld unlockAnimation p
  | AutoplayTick => onWorld autoplayTick p
  | ResizeSync => resizeSync p
  end.

Definition with_browser (f : Browser -> Browser) (p : Page) : Page :=
  {| page_browser := f (page_browser p);
     resizeTimer := resizeTimer p;
     container := container p |}.

(** Inputs of the page.  [Fire id] is the event loop running the handler of
    timer [id]; [Elapse dt] is the passage of [dt] milliseconds.  The model
    is permissive about the environment: a timer may run late, hover events
    need not alternate, and a click is accepted whatever the [disabled]
    state of the button. *)
Inductive Event : Type :=
| ClickNext
| ClickPrev
| ClickIndicator (i : nat)
| KeyDown (key : string)
| TouchStart (x : Z)
| TouchMove (x : Z)
| TouchEnd
| MouseEnter
| MouseLeave
| WindowResize
| Fire (id : positive)
| Elapse (dt : Z).

(** The listeners registered by [init] (lines 61-82) and by
    [addTouchSupport].  An indicator click exists only for an indicator
    element; the listener passes its position in the list. *)
Definition widgetEvent (e : Event) (t : Touch) (w : World) : option (Touch * World) :=
  match e with
  | ClickNext => Some (t, next w)
  | ClickPrev => Some (t, prev w)
  | ClickIndicator i =>
      if bool_decide (i < length (indicators (dom (carousel w))))%nat
      then Some (t, goToSlide (Z.of_nat i) w) else None
  | KeyDown key => Some (t, keydown key w)
  | TouchStart x => Some (touchstart x t, w)
  | TouchMove x => Some (touchmove x t, w)
  | TouchEnd => Some (touchend t w)
  | MouseEnter => Some (t, stopAutoplay w)
  | MouseLeave => Some (t, startAutoplay w)
  | _ => None
  end.

(** A timer runs no earlier than its due time; its handler runs first, then
    the table is settled. *)
Definition fire (id : positive) (p : Page) : option Page :=
  match timers (page_browser p) !! id with
  | Some t =>
      if due t <=? now (page_browser p)
      then Some (with_browser (settle id) (runCallback (callback t) p))
      else None
  | None => None
  end.

(** One turn of the event loop; [None] when the event cannot occur. *)
Definition step (p : Page) (e : Event) : option Page :=
  match e with
  | WindowResize => Some (onResize p)
  | Fire id => fire id p
  | Elapse dt => if 0 <=? dt then Some (with_browser (advance dt) p) else None
  | _ =>
      match container p with
      | Some k =>
          match widgetEvent e (touch k) (worldOf p k) with
          | Some (t, w) => Some (putWorld t w p k)
          | None => None
          end
      | None => None
      end
  end.

Fixpoint run (p : Page) (es : list Event) : option Page :=
  match es with
  | [] => Some p
  | e :: es =>
      match step p e with
      | Some p' => run p' es
      | None => None
      end
  end.

(** Pages that a session can be in. *)
Inductive reachable (m : option Markup) : Page -> Prop :=
| reach_load : reachable m (load m)
| reach_step p e p' : reachable m p -> step p e = Some p' -> reachable m p'.

(** What the user sees of the carousel. *)
Definition visual (c : Carousel) : Z * Dom := (currentIndex c, dom c).

(** A three-slide carousel with three indicators, as markup. *)
Definition demoMarkup : Markup :=
  {| slideElements := 3;
     indicatorElements := replicate 3 {| active := false; aria_selected := "false" |};
     prevElement := {| disabled := false; aria_disabled := "false" |};
     nextElement := {| disabled := false; aria_disabled := "false" |} |}.

(* ===================================================================== *)
(** ** Vocabulary of the properties *)
(* ===================================================================== *)

(** Two instances that differ at most in the autoplay handle. *)
Definition sameButHandle (c c' : Carousel) : Prop :=
  dom c' = dom c /\ slides_length c' = slides_length c /\
  currentIndex c' = currentIndex c /\ isAnimating c' = isAnimating c /\
  autoplayDelay c' = autoplayDelay c.

(** Indicators that are selected, counted. *)
Definition activeCount (d : Dom) : nat :=
  length (List.filter active (indicators d)).

(** The world right after constructing a carousel on [demoMarkup]. *)
Definition demoWorld : World :=
  init {| browser := initialBrowser; carousel := newCarousel demoMarkup; calls := [] |}.

(** The same container without indicator elements. *)
Definition bareMarkup : Markup :=
  {| slideElements := 3;
     indicatorElements := [];
     prevElement := {| disabled := false; aria_disabled := "false" |};
     nextElement := {| disabled := false; aria_disabled := "false" |} |}.

Definition bareWorld : World :=
  init {| browser := initialBrowser; carousel := newCarousel bareMarkup; calls := [] |}.

(** The positioning property as the specification words it: every index of
    a slide leaves exactly one indicator selected. *)
Definition sync_selects_one : Prop :=
  forall (w : World) (index : Z),
    0 <= index <= lastIndex (carousel w) ->
    let c' := carousel (updateCarousel index false w) in
    currentIndex c' = index /\
    track_offset (dom c') = - index * 100 /\
    activeCount (dom c') = 1%nat /\
    (disabled (prevButton (dom c')) = true <-> index = 0) /\
    (disabled (nextButton (dom c')) = true <-> index = lastIndex (carousel w)).


(** [demoWorld] repositioned on its last slide. *)
Definition demoWorldLast : World := updateCarousel 2 false demoWorld.

(** A drag in progress from [s] with last recorded position [c]. *)
Definition dragging (s c : Z) : Touch :=
  {| startX := s; currentX := c; isDragging := true |}.

(** Inputs that reach [updateCarousel] with [animate] left at its default:
    the two buttons, an indicator, the arrow keys, the end of a swipe. *)
Definition navigation (e : Event) : bool :=
  match e with
  | ClickNext | ClickPrev | ClickIndicator _ | KeyDown _ | TouchEnd => true
  | _ => false
  end.

(** The animation lock of the page's carousel is set. *)
Definition locked (p : Page) : Prop :=
  exists k, container p = Some k /\ isAnimating (instance k) = true.

(** What the page shows of its carousel, if it has one. *)
Definition view (p : Page) : option (Z * Dom) :=
  (fun k => visual (instance k)) <$> container p.

(** The page reached from a freshly loaded [demoMarkup] by a list of
    events. *)
Definition after (es : list Event) : Page :=
  match run (load (Some demoMarkup)) es with
  | Some p => p
  | None => load None
  end.

(** The changes the page makes to the timer table outside the carousel's
    own methods: time passing, the event loop settling a fired timer, and
    the resize listener cancelling and scheduling its timeout. *)
Inductive timerOp (b : Browser) : Browser -> Prop :=
| op_advance dt : timerOp b (advance dt b)
| op_settle id : timerOp b (settle id b)
| op_clear id : timerOp b (clearTimer id b)
| op_resize : timerOp b (setTimeout ResizeSync 250 b).2.

(** The world a freshly constructed carousel starts in. *)
Definition initialWorld (mk : Markup) : World :=
  init {| browser := initialBrowser; carousel := newCarousel mk; calls := [] |}.

(** [0 <= currentIndex < slideCount] *)
Definition indexInRange (c : Carousel) : Prop :=
  0 <= currentIndex c < Z.of_nat (slides_length c).

(** The instance still has the slide and indicator counts of its markup. *)
Definition shaped (mk : Markup) (c : Carousel) : Prop :=
  slides_length c = slideElements mk /\
  length (indicators (dom c)) = length (indicatorElements mk).

(** At least one slide, and no indicator without a slide. *)
Definition wellFormed (mk : Markup) : Prop :=
  (1 <= slideElements mk)%nat /\
  (length (indicatorElements mk) <= slideElements mk)%nat.

(** Handles in use lie below the next handle to be issued. *)
Definition freshTimers (b : Browser) : Prop :=
  forall id t, timers b !! id = Some t -> (id < nextId b)%positive.

Definition fresh (w : World) : Prop :=
  freshTimers (browser w) /\
  (forall id, autoplayInterval (carousel w) = Some id -> (id < nextId (browser w))%positive) /\
  autoplayDelay (carousel w) = 5000.

(** The page has its carousel, nothing has been stored in the container's
    [carouselInstance], and [I] holds of the carousel's world. *)
Definition holds (I : World -> Prop) (p : Page) : Prop :=
  exists k, container p = Some k /\ carouselInstance k = None /\ I (worldOf p k).



(** Three slides, four indicator elements. *)
Definition excessMarkup : Markup :=
  {| slideElements := 3;
     indicatorElements := replicate 4 {| active := false; aria_selected := "false" |};
     prevElement := {| disabled := false; aria_disabled := "false" |};
     nextElement := {| disabled := false; aria_disabled := "false" |} |}.

(** The index invariant together with what it needs to be inductive. *)
Definition rangeInv (mk : Markup) (w : World) : Prop :=
  shaped mk (carousel w) /\ indexInRange (carousel w).

(** The autoplay heartbeat as the specification words it: a tick that
    finds a next slide moves to it and keeps its own timer, the handle and
    the interval behind it staying as they were. *)
Definition tick_keeps_timer : Prop :=
  forall (mk : Markup) (p p' : Page) (k : Container) (id : positive) (t : Timer),
    reachable (Some mk) p -> container p = Some k ->
    timers (page_browser p) !! id = Some t -> callback t = AutoplayTick ->
    currentIndex (instance k) < lastIndex (instance k) ->
    step p (Fire id) = Some p' ->
    exists k', container p' = Some k' /\
      currentIndex (instance k') = currentIndex (instance k) + 1 /\
      autoplayInterval (instance k') = autoplayInterval (instance k) /\
      forall h, autoplayInterval (instance k) = Some h ->
                is_Some (timers (page_browser p') !! h).

(** The interval [startAutoplay] installs at clock value [t]. *)
Definition autoplayTimer (t : Z) : Timer :=
  {| due := t + 5000; period := Some 5000; callback := AutoplayTick |}.

(** The calls of [updateCarousel] recorded on a page. *)
Definition pageCalls (p : Page) : list (Z * bool) :=
  match container p with
  | Some k => log k
  | None => []
  end.

(** A burst of two resize events 100 ms apart, then the quiet window. *)
Definition resizeBurst : list Event :=
  [WindowResize; Elapse 100; WindowResize; Elapse 250].

(** Pointer enters the carousel, clicks "next", leaves. *)
Definition hoverClickLeave : list Event := [MouseEnter; ClickNext; MouseLeave].

(** Every resize timeout of the second table is already in the first. *)
Definition addsNoResize (b b' : Browser) : Prop :=
  forall id t, timers b' !! id = Some t -> callback t = ResizeSync ->
               timers b !! id = Some t.

(** The only resize timeout that can be pending is the one whose handle
    the resize block holds. *)
Definition debounced (p : Page) : Prop :=
  forall id t, timers (page_browser p) !! id = Some t -> callback t = ResizeSync ->
               resizeTimer p = Some id.

(* ===================================================================== *)
(** ** Further vocabulary: rendering, cycles, timer wiring *)
(* ===================================================================== *)

(** The DOM of the instance is what [updateCarousel] writes for the
    current index. *)
Definition rendered (c : Carousel) : Prop :=
  dom c =
  {| track_offset := - currentIndex c * 100;
     indicators := imap (mark (currentIndex c)) (indicators (dom c));
     prevButton := {| disabled := currentIndex c =? 0;
                      aria_disabled := attr (currentIndex c =? 0) |};
     nextButton := {| disabled := currentIndex c =? lastIndex c;
                      aria_disabled := attr (currentIndex c =? lastIndex c) |} |}.

(** [rendered], with the element counts of the markup. *)
Definition renderInv (mk : Markup) (w : World) : Prop :=
  rendered (carousel w) /\ shaped mk (carousel w).

(** One autoplay period seen from the carousel: the tick, then the end of
    the transition it started. *)
Definition tickCycle (w : World) : World := unlockAnimation (autoplayTick w).

(** What the event loop runs for a timer on a page whose container carries
    no [carouselInstance] (there the resize handler falls through). *)
Definition handler (cb : Callback) (w : World) : World :=
  match cb with
  | UnlockAnimation => unlockAnimation w
  | AutoplayTick => autoplayTick w
  | ResizeSync => w
  end.

(** The resize listener on the pair of its handle and the world. *)
Definition resizeOp (r : option positive) (w : World) : option positive * World :=
  let b := match r with
           | Some id => clearTimeout id (browser w)
           | None => browser w
           end in
  (Some (nextId b), set_browser (setTimeout ResizeSync 250 b).2 w).

(** The steps of a page with a carousel, seen on the resize handle and the
    world alone. *)
Inductive move : Event -> option positive * World -> option positive * World -> Prop :=
| mv_same e r w : move e (r, w) (r, w)
| mv_next e r w : move e (r, w) (r, next w)
| mv_prev e r w : move e (r, w) (r, prev w)
| mv_goTo (i : nat) r w :
    (i < length (indicators (dom (carousel w))))%nat ->
    move (ClickIndicator i) (r, w) (r, goToSlide (Z.of_nat i) w)
| mv_stop r w : move MouseEnter (r, w) (r, stopAutoplay w)
| mv_start r w : move MouseLeave (r, w) (r, startAutoplay w)
| mv_resize r w : move WindowResize (r, w) (resizeOp r w)
| mv_elapse dt r w :
    0 <= dt -> move (Elapse dt) (r, w) (r, set_browser (advance dt (browser w)) w)
| mv_fire id t r w :
    timers (browser w) !! id = Some t -> due t <= now (browser w) ->
    move (Fire id) (r, w)
         (r, set_browser (settle id (browser (handler (callback t) w)))
                         (handler (callback t) w)).

(** Sessions in which every event satisfies a side condition [G] on the
    state it arrives in. *)
Inductive guarded (G : Event -> option positive * World -> Prop) (mk : Markup)
  : Page -> Prop :=
| g_load : guarded G mk (load (Some mk))
| g_step p e p' k :
    guarded G mk p -> container p = Some k ->
    G e (resizeTimer p, worldOf p k) -> step p e = Some p' ->
    guarded G mk p'.

(** What each kind of pending timer looks like at clock value [t] when the
    lock has value [lock]. *)
Definition timerOk (t : Z) (lock : bool) (tm : Timer) : Prop :=
  match callback tm with
  | UnlockAnimation => period tm = None /\ due tm <= t + 500 /\ lock = true
  | AutoplayTick => period tm = Some 5000 /\ due tm <= t + 5000
  | ResizeSync => period tm = None /\ due tm <= t + 250
  end.

(** How the timer table, the lock, the autoplay handle [h] and the resize
    handle [r] hang together. *)
Record wiring (b : Browser) (lock : bool) (h r : option positive) : Prop := mkWiring {
  wi_fresh : freshTimers b;
  wi_handle : forall id, h = Some id ->
      exists t, timers b !! id = Some t /\ callback t = AutoplayTick;
  wi_resize : forall id, r = Some id ->
      (id < nextId b)%positive /\
      forall t, timers b !! id = Some t -> callback t = ResizeSync;
  wi_timers : forall id t, timers b !! id = Some t -> timerOk (now b) lock t;
  wi_locked : lock = true ->
      exists id t, timers b !! id = Some t /\ callback t = UnlockAnimation;
  wi_unique : forall id1 t1 id2 t2,
      timers b !! id1 = Some t1 -> callback t1 = UnlockAnimation ->
      timers b !! id2 = Some t2 -> callback t2 = UnlockAnimation -> id1 = id2
}.

Definition wired (s : option positive * World) : Prop :=
  wiring (browser s.2) (isAnimating (carousel s.2))
         (autoplayInterval (carousel s.2)) s.1 /\
  autoplayDelay (carousel s.2) = 5000.

(** Entries of the second table under handles the first had already issued
    are entries of the first. *)
Definition olderKept (b b' : Browser) : Prop :=
  (nextId b <= nextId b')%positive /\
  forall id t, timers b' !! id = Some t -> (id < nextId b)%positive ->
               timers b !! id = Some t.

(** The pointer leaves the container only while autoplay is stopped. *)
Definition leavesStopped (e : Event) (s : option positive * World) : Prop :=
  e = MouseLeave -> autoplayInterval (carousel s.2) = None.

(** Every live autoplay interval is the one held in the handle. *)
Definition singleInterval (s : option positive * World) : Prop :=
  forall id t, timers (browser s.2) !! id = Some t -> callback t = AutoplayTick ->
               autoplayInterval (carousel s.2) = Some id.

(** A container whose track has no children and that has no indicators. *)
Definition emptyTrack (mk : Markup) : Prop :=
  slideElements mk = 0%nat /\ indicatorElements mk = [].

(** The carousel built on an empty track stays as constructed. *)
Definition inert (w : World) : Prop :=
  slides_length (carousel w) = 0%nat /\ currentIndex (carousel w) = 0 /\
  indicators (dom (carousel w)) = [] /\ rendered (carousel w).

(** A container with nothing in it. *)
Definition emptyMarkup : Markup :=
  {| slideElements := 0;
     indicatorElements := [];
     prevElement := {| disabled := false; aria_disabled := "false" |};
     nextElement := {| disabled := false; aria_disabled := "false" |} |}.

(* ===================================================================== *)
(** ** The intersection-observer callbacks (lines 18-27 and 289-298) *)
(* ===================================================================== *)

(** Elements are named by numbers.  An [IntersectionObserverEntry] as far
    as the callbacks read it. *)
Record Entry : Type := mkEntry {
  target : nat;
  isIntersecting : bool
}.

(** The targets a batch of entries reports as intersecting, in order. *)
Definition hits (entries : list Entry) : list nat :=
  target <$> List.filter isIntersecting entries.

(** [ScrollAnimator]: the set of elements whose class list holds
    ['aos-animate'].  The body of its [entries.forEach]: *)
Definition animateEntry (animated : gset nat) (e : Entry) : gset nat :=
  if isIntersecting e then {[target e]} ∪ animated else animated.

Definition scrollCallback (entries : list Entry) (animated : gset nat) : gset nat :=
  foldl animateEntry animated entries.

(** [PerformanceOptimizer.lazyLoadImages]: an image element with its [src]
    and [data-src] attributes (absent or a string). *)
Record Img : Type := mkImg {
  img_src : option string;
  img_data_src : option string
}.

(** The images of the page and the targets [imageObserver] observes. *)
Record LazyState : Type := mkLazy {
  lz_images : gmap nat Img;
  lz_observed : gset nat
}.

(** [img.dataset.src] converted to the string that [img.src = ...]
    stores: the attribute value, or the string form of [undefined]. *)
Definition datasetSrc (i : Img) : string :=
  match img_data_src i with
  | Some u => u
  | None => "undefined"
  end.

(** Lines 293-294 on one image. *)
Definition loadImg (i : Img) : Img :=
  {| img_src := Some (datasetSrc i); img_data_src := None |}.

(** The body of the [entries.forEach] of lines 290-297. *)
Definition lazyEntry (s : LazyState) (e : Entry) : LazyState :=
  if isIntersecting e then
    {| lz_images := alter loadImg (target e) (lz_images s);
       lz_observed := lz_observed s ∖ {[target e]} |}
  else s.

Definition lazyCallback (entries : list Entry) (s : LazyState) : LazyState :=
  foldl lazyEntry s entries.

(** Lines 287 and 300: every [img[data-src]] of the page is observed. *)
Definition hasDataSrc (i : Img) : bool :=
  match img_data_src i with Some _ => true | None => false end.

Definition lazyLoadImages (imgs : gmap nat Img) : LazyState :=
  {| lz_images := imgs;
     lz_observed :=
       base.dom (filter (fun kv : nat * Img => hasDataSrc kv.2 = true) imgs) |}.

(** A batch as an observer delivers it in the normal case: at most one
    intersecting entry per target, and only for observed targets. *)
Definition regular (s : LazyState) (entries : list Entry) : Prop :=
  NoDup (hits entries) /\ forall j, j ∈ hits entries -> j ∈ lz_observed s.

(** A session of batches, each regular when it arrives. *)
Fixpoint regularRun (batches : list (list Entry)) (s : LazyState) : Prop :=
  match batches with
  | [] => True
  | b :: bs => regular s b /\ regularRun bs (lazyCallback b s)
  end.

Definition lazyRun (batches : list (list Entry)) (s : LazyState) : LazyState :=
  foldl (fun s b => lazyCallback b s) s batches.

(** Where an image of the page stands in a state: untouched and still
    observed if it has a [data-src], or loaded from it and unobserved. *)
Definition lazyStatus (img0 : Img) (i : nat) (s : LazyState) : Prop :=
  (lz_images s !! i = Some img0 /\ (hasDataSrc img0 = true <-> i ∈ lz_observed s)) \/
  (exists u, img_data_src img0 = Some u /\
             lz_images s !! i = Some {| img_src := Some u; img_data_src := None |} /\
             i ∉ lz_observed s).

(** Two lazy images and one ordinary image. *)
Definition demoImages : gmap nat Img :=
  <[0%nat := {| img_src := None; img_data_src := Some "a.png" |}]>
  (<[1%nat := {| img_src := None; img_data_src := Some "b.png" |}]>
  (<[2%nat := {| img_src := Some "c.png"; img_data_src := None |}]> ∅)).

(* ===================================================================== *)
(** ** The live region (lines 365-390) *)
(* ===================================================================== *)

(** The text of the live region, the due times of the pending clearing
    timeouts (their handles are discarded by the script and their handlers
    are all the same closure), and the clock. *)
Record LiveRegion : Type := mkLive {
  live_text : string;
  live_clears : list Z;
  live_now : Z
}.

(** Line 381: the region is appended empty. *)
Definition setupAriaLive : LiveRegion :=
  {| live_text := ""; live_clears := []; live_now := 0 |}.

(** Lines 384-389. *)
Definition announceToScreenReader (message : string) (l : LiveRegion) : LiveRegion :=
  {| live_text := message;
     live_clears := live_clears l ++ [live_now l + 1000];
     live_now := live_now l |}.

(** The [i]-th pending clearing timeout runs, once it is due. *)
Definition liveClear (i : nat) (l : LiveRegion) : option LiveRegion :=
  match live_clears l !! i with
  | Some d =>
      if d <=? live_now l then
        Some {| live_text := ""; live_clears := delete i (live_clears l);
                live_now := live_now l |}
      else None
  | None => None
  end.

Definition liveElapse (dt : Z) (l : LiveRegion) : option LiveRegion :=
  if 0 <=? dt then
    Some {| live_text := live_text l; live_clears := live_clears l;
            live_now := live_now l + dt |}
  else None.

Inductive LiveEvent : Type :=
| Announce (message : string)
| ClearFires (i : nat)
| LiveElapse (dt : Z).

Definition liveStep (l : LiveRegion) (e : LiveEvent) : option LiveRegion :=
  match e with
  | Announce m => Some (announceToScreenReader m l)
  | ClearFires i => liveClear i l
  | LiveElapse dt => liveElapse dt l
  end.

Inductive liveReachable : LiveRegion -> Prop :=
| live_init : liveReachable setupAriaLive
| live_step l e l' : liveReachable l -> liveStep l e = Some l' -> liveReachable l'.

(** How many intersecting entries of a batch name target [j]. *)
Definition hitCount (j : nat) (entries : list Entry) : nat :=
  length (List.filter (Nat.eqb j) (hits entries)).

(** A session on [demoImages]: image 0 scrolls into view while image 2 is
    reported outside, then image 1 scrolls into view. *)
Definition demoBatches : list (list Entry) :=
  [[{| target := 0; isIntersecting := true |};
    {| target := 1; isIntersecting := false |}];
   [{| target := 1; isIntersecting := true |}]].

(** What the live region keeps true. *)
Definition liveInv (l : LiveRegion) : Prop :=
  (forall d, d ∈ live_clears l -> d <= live_now l + 1000) /\
  (live_text l <> "" -> live_clears l <> []).

(** Timer [id] is an autoplay interval that the handle does not hold. *)
Definition leaked (id : positive) (w : World) : Prop :=
  (exists t, timers (browser w) !! id = Some t /\ callback t = AutoplayTick) /\
  autoplayInterval (carousel w) <> Some id.

(** The timeout an accepted animated update schedules at clock value [t]. *)
Definition unlockTimer (t : Z) : Timer :=
  {| due := t + 500; period := None; callback := UnlockAnimation |}.

(* ===================================================================== *)
(** ** Non-animated calls; the history of touch events *)
(* ===================================================================== *)



(** The specification's "last position recorded by any previous gesture
    (initially 0)", read off a history of events and not off the handlers:
    scanning the history, [g] tells whether a gesture is in progress (a
    [touchstart] without its [touchend] yet) and [last] is the position of
    the latest [touchmove] that arrived during a gesture. *)
Fixpoint lastRecorded (es : list Event) (g : bool) (last : Z) : bool * Z :=
  match es with
  | [] => (g, last)
  | TouchStart _ :: es => lastRecorded es true last
  | TouchMove c :: es => lastRecorded es g (if g then c else last)
  | TouchEnd :: es => lastRecorded es false last
  | _ :: es => lastRecorded es g last
  end.

(** A page without a [.carousel-container] has only resize timeouts. *)
Definition resizeOnly (p : Page) : Prop :=
  container p = None /\
  forall id t, timers (page_browser p) !! id = Some t ->
               callback t = ResizeSync /\ period t = None /\
               due t <= now (page_browser p) + 250.

(** A swipe from 200 to 10 on the demo page, and the end of the transition
    it starts. *)
Definition swipeThenRest : list Event :=
  [TouchStart 200; TouchMove 10; TouchEnd; Elapse 500; Fire 2%positive].
(* ===================================================================== *)
(** ** Basic facts about the methods *)
(* ===================================================================== *)

Lemma sameButHandle_refl c : sameButHandle c c.
Proof. by repeat split. Qed.

Lemma sameButHandle_trans c1 c2 c3 :
  sameButHandle c1 c2 -> sameButHandle c2 c3 -> sameButHandle c1 c3.
Proof.
  intros (?&?&?&?&?) (?&?&?&?&?). repeat split; congruence.
Qed.

Lemma sameButHandle_visual c c' : sameButHandle c c' -> visual c' = visual c.
Proof. intros (Hd&_&Hi&_). unfold visual. by rewrite Hd, Hi. Qed.

Lemma startAutoplay_same w : sameButHandle (carousel w) (carousel (startAutoplay w)).
Proof. by repeat split. Qed.

Lemma stopAutoplay_same w : sameButHandle (carousel w) (carousel (stopAutoplay w)).
Proof. unfold stopAutoplay. by destruct (autoplayInterval _); repeat split. Qed.

Lemma resetAutoplay_same w : sameButHandle (carousel w) (carousel (resetAutoplay w)).
Proof.
  unfold resetAutoplay.
  eapply sameButHandle_trans; [apply stopAutoplay_same | apply startAutoplay_same].
Qed.

(** An animated update arriving under the lock only leaves a mark in the
    instrumentation. *)
Lemma updateCarousel_locked index w :
  isAnimating (carousel w) = true ->
  updateCarousel index true w = record_call index true w.
Proof. intros H. unfold updateCarousel. simpl. by rewrite H. Qed.

(** Any update that is not dropped stores its argument, whatever it is. *)
Lemma updateCarousel_index index animate w :
  isAnimating (carousel w) && animate = false ->
  currentIndex (carousel (updateCarousel index animate w)) = index.
Proof.
  intros H. unfold updateCarousel. simpl. rewrite H. by destruct animate.
Qed.

Lemma updateCarousel_dom index animate w :
  isAnimating (carousel w) && animate = false ->
  dom (carousel (updateCarousel index animate w)) =
  {| track_offset := - index * 100;
     indicators := imap (mark index) (indicators (dom (carousel w)));
     prevButton := {| disabled := index =? 0; aria_disabled := attr (index =? 0) |};
     nextButton := {| disabled := index =? lastIndex (carousel w);
                      aria_disabled := attr (index =? lastIndex (carousel w)) |} |}.
Proof.
  intros H. unfold updateCarousel. simpl. rewrite H. by destruct animate.
Qed.

Lemma updateCarousel_lock index animate w :
  isAnimating (carousel w) && animate = false ->
  isAnimating (carousel (updateCarousel index animate w)) = animate.
Proof.
  intros H. unfold updateCarousel. simpl. rewrite H. by destruct animate.
Qed.

Lemma updateCarousel_slides index animate w :
  slides_length (carousel (updateCarousel index animate w)) = slides_length (carousel w).
Proof.
  unfold updateCarousel. simpl.
  by destruct (isAnimating (carousel w) && animate), animate.
Qed.

Lemma updateCarousel_handle index animate w :
  autoplayInterval (carousel (updateCarousel index animate w)) =
  autoplayInterval (carousel w).
Proof.
  unfold updateCarousel. simpl.
  by destruct (isAnimating (carousel w) && animate), animate.
Qed.

Lemma updateCarousel_delay index animate w :
  autoplayDelay (carousel (updateCarousel index animate w)) = autoplayDelay (carousel w).
Proof.
  unfold updateCarousel. simpl.
  by destruct (isAnimating (carousel w) && animate), animate.
Qed.

Lemma updateCarousel_indicator_count index animate w :
  length (indicators (dom (carousel (updateCarousel index animate w)))) =
  length (indicators (dom (carousel w))).
Proof.
  unfold updateCarousel. simpl.
  destruct (isAnimating (carousel w) && animate); [done|].
  destruct animate; simpl; apply length_imap.
Qed.

Lemma mark_lookup index (l : list Indicator) i ind :
  imap (mark index) l !! i = Some ind ->
  active ind = (Z.of_nat i =? index) /\
  aria_selected ind = attr (Z.of_nat i =? index).
Proof.
  rewrite list_lookup_imap. destruct (l !! i); simpl; [|done].
  by intros [= <-].
Qed.

Lemma attr_true b : attr b = "true" <-> b = true.
Proof. by destruct b. Qed.

(** After marking, the selected indicators are those at offset [index]
    from the head of the list: one if the list is that long, else none. *)
Lemma marked_count (l : list Indicator) (index : Z) (k : nat) :
  length (List.filter active
            (imap (fun i => mark index (k + i)) l)) =
  if bool_decide (Z.of_nat k <= index < Z.of_nat k + Z.of_nat (length l))
  then 1%nat else 0%nat.
Proof.
  revert k. induction l as [|x l IH]; intros k.
  - simpl. case_bool_decide; [lia|done].
  - cbn [imap List.filter length]. unfold mark at 1. cbn [active].
    replace (k + 0)%nat with k by lia.
    assert (Heq : imap ((fun i => mark index (k + i)) ∘ S) l =
                  imap (fun i => mark index (S k + i)) l).
    { apply imap_ext. intros i y _. simpl. f_equal. lia. }
    rewrite Heq.
    destruct (Z.eqb_spec (Z.of_nat k) index) as [E|E].
    + cbn [length]. rewrite IH.
      repeat case_bool_decide; lia.
    + rewrite IH. repeat case_bool_decide; lia.
Qed.

Lemma marked_count_all (l : list Indicator) (index : Z) :
  0 <= index ->
  length (List.filter active (imap (mark index) l)) =
  if bool_decide (index < Z.of_nat (length l)) then 1%nat else 0%nat.
Proof.
  intros Hi. etransitivity; [exact (marked_count l index 0)|].
  repeat case_bool_decide; lia.
Qed.

(* ===================================================================== *)
(** ** Non-animated positioning *)
(* ===================================================================== *)

(** C2, counterexample: a container with three slides and no indicator
    element (the indicator list is looked up independently of the slides)
    is positioned on slide 1 with no indicator selected, so "exactly one
    indicator is marked active" does not hold for every valid index. *)
Lemma sync_selects_one_fails : ~ sync_selects_one.
Proof.
  intros H.
  assert (Hr : 0 <= 1 <= lastIndex (carousel bareWorld)) by (vm_compute; split; discriminate).
  destruct (H bareWorld 1 Hr) as (_ & _ & Hc & _).
  vm_compute in Hc. discriminate.
Qed.

(** C2, amended: for every valid index, after [updateCarousel(index, false)]
    the current index is [index], the track offset is [-index * 100] percent,
    an indicator carries the active class (and [aria-selected] "true")
    exactly when it sits at position [index] -- so exactly one indicator is
    selected when the container has an indicator at that position and none
    otherwise --, the previous button is disabled (and [aria-disabled])
    exactly at index 0, the next button exactly at the last index, and the
    lock is released. *)
Theorem updateCarousel_sync (w : World) (index : Z) :
  0 <= index <= lastIndex (carousel w) ->
  let c' := carousel (updateCarousel index false w) in
  currentIndex c' = index /\
  track_offset (dom c') = - index * 100 /\
  (forall i ind, indicators (dom c') !! i = Some ind ->
     (active ind = true <-> Z.of_nat i = index) /\
     (aria_selected ind = "true" <-> Z.of_nat i = index)) /\
  activeCount (dom c') =
    (if bool_decide (index < Z.of_nat (length (indicators (dom (carousel w)))))
     then 1%nat else 0%nat) /\
  (disabled (prevButton (dom c')) = true <-> index = 0) /\
  (aria_disabled (prevButton (dom c')) = "true" <-> index = 0) /\
  (disabled (nextButton (dom c')) = true <-> index = lastIndex (carousel w)) /\
  (aria_disabled (nextButton (dom c')) = "true" <-> index = lastIndex (carousel w)) /\
  isAnimating c' = false.
Proof.
  intros Hr c'.
  assert (Hg : isAnimating (carousel w) && false = false) by apply andb_false_r.
  subst c'.
  rewrite (updateCarousel_index _ _ _ Hg), (updateCarousel_lock _ _ _ Hg),
    (updateCarousel_dom _ _ _ Hg).
  cbn [track_offset indicators prevButton nextButton disabled aria_disabled].
  split; [done|]. split; [done|]. split.
  { intros i ind Hi. apply mark_lookup in Hi as [-> ->].
    rewrite attr_true. by rewrite Z.eqb_eq. }
  split.
  { unfold activeCount. cbn [indicators].
    apply marked_count_all. lia. }
  rewrite !attr_true, !Z.eqb_eq. done.
Qed.

(** C2, witness: the demo carousel (three slides, three indicators)
    positioned on slide 1. *)
Lemma updateCarousel_sync_witness :
  0 <= 1 <= lastIndex (carousel demoWorld) /\
  currentIndex (carousel (updateCarousel 1 false demoWorld)) = 1 /\
  activeCount (dom (carousel (updateCarousel 1 false demoWorld))) = 1%nat.
Proof.
  assert (Hr : 0 <= 1 <= lastIndex (carousel demoWorld))
    by (vm_compute; split; discriminate).
  split; [exact Hr|].
  destruct (updateCarousel_sync demoWorld 1 Hr) as (Hi & _ & _ & Hc & _).
  split; [exact Hi|exact Hc].
Defined.

(* ===================================================================== *)
(** ** Manual navigation stops at the ends, autoplay wraps *)
(* ===================================================================== *)

(** C4: with the animation lock clear, [next()] on the last slide returns
    the whole state (timers, instance, call record) unchanged, [prev()] on
    the first slide likewise, and the autoplay handler on the last slide
    sets [currentIndex] to 0. *)
Theorem manual_stops_autoplay_wraps (w : World) :
  isAnimating (carousel w) = false ->
  (currentIndex (carousel w) = lastIndex (carousel w) -> next w = w) /\
  (currentIndex (carousel w) = 0 -> prev w = w) /\
  (currentIndex (carousel w) = lastIndex (carousel w) ->
   currentIndex (carousel (autoplayTick w)) = 0).
Proof.
  intros Hlock. repeat split.
  - intros Hlast. unfold next. rewrite Hlast, Z.ltb_irrefl. done.
  - intros Hfirst. unfold prev. rewrite Hfirst. done.
  - intros Hlast. unfold autoplayTick. rewrite Hlast, Z.ltb_irrefl.
    apply updateCarousel_index. by rewrite Hlock.
Qed.

(** C4, witness: the demo carousel on its last slide ([next], tick) and on
    its first ([prev]). *)
Lemma manual_stops_autoplay_wraps_witness :
  next demoWorldLast = demoWorldLast /\
  prev demoWorld = demoWorld /\
  currentIndex (carousel (autoplayTick demoWorldLast)) = 0.
Proof.
  destruct (manual_stops_autoplay_wraps demoWorldLast eq_refl) as (Hn & _ & Ht).
  destruct (manual_stops_autoplay_wraps demoWorld eq_refl) as (_ & Hp & _).
  split; [exact (Hn eq_refl)|]. split; [exact (Hp eq_refl)|exact (Ht eq_refl)].
Defined.

(* ===================================================================== *)
(** ** Swipe resolution *)
(* ===================================================================== *)

(** C9: at the end of a gesture with recorded start [s] and recorded last
    position [c], a displacement of at most 50 pixels leaves the carousel
    and the timers untouched (no navigation method is called); beyond 50
    pixels the result is that of [next()] when [s - c > 0] and that of
    [prev()] when [s - c < 0]. *)
Theorem swipe_threshold (s c : Z) (w : World) :
  (Z.abs (s - c) <= 50 -> (touchend (dragging s c) w).2 = w) /\
  (Z.abs (s - c) > 50 -> s - c > 0 -> (touchend (dragging s c) w).2 = next w) /\
  (Z.abs (s - c) > 50 -> s - c < 0 -> (touchend (dragging s c) w).2 = prev w).
Proof.
  unfold touchend, touchDiff, threshold. cbn [isDragging dragging startX currentX snd].
  repeat split.
  - intros H. destruct (Z.gtb_spec (Z.abs (s - c)) 50); [lia|done].
  - intros H Hpos. destruct (Z.gtb_spec (Z.abs (s - c)) 50); [|lia].
    destruct (Z.gtb_spec (s - c) 0); [done|lia].
  - intros H Hneg. destruct (Z.gtb_spec (Z.abs (s - c)) 50); [|lia].
    destruct (Z.gtb_spec (s - c) 0); [lia|done].
Qed.

(** C9, witness: displacements of 49, 51 and -51 pixels. *)
Lemma swipe_threshold_witness :
  (touchend (dragging 100 51) demoWorld).2 = demoWorld /\
  (touchend (dragging 100 49) demoWorld).2 = next demoWorld /\
  (touchend (dragging 49 100) demoWorldLast).2 = prev demoWorldLast.
Proof.
  split; [|split].
  - apply (proj1 (swipe_threshold 100 51 demoWorld)). simpl. lia.
  - apply (proj1 (proj2 (swipe_threshold 100 49 demoWorld))); simpl; lia.
  - apply (proj2 (proj2 (swipe_threshold 49 100 demoWorldLast))); simpl; lia.
Defined.

Lemma gesture_records s c t : touchmove c (touchstart s t) = dragging s c.
Proof. done. Qed.

(* ===================================================================== *)
(** ** Navigation under the animation lock *)
(* ===================================================================== *)

Lemma next_locked w :
  isAnimating (carousel w) = true -> sameButHandle (carousel w) (carousel (next w)).
Proof.
  intros H. unfold next. case_match; [|apply sameButHandle_refl].
  rewrite (updateCarousel_locked _ _ H).
  apply (resetAutoplay_same (record_call _ _ w)).
Qed.

Lemma prev_locked w :
  isAnimating (carousel w) = true -> sameButHandle (carousel w) (carousel (prev w)).
Proof.
  intros H. unfold prev. case_match; [|apply sameButHandle_refl].
  rewrite (updateCarousel_locked _ _ H).
  apply (resetAutoplay_same (record_call _ _ w)).
Qed.

Lemma goToSlide_locked index w :
  isAnimating (carousel w) = true ->
  sameButHandle (carousel w) (carousel (goToSlide index w)).
Proof.
  intros H. unfold goToSlide. rewrite (updateCarousel_locked _ _ H).
  apply (resetAutoplay_same (record_call _ _ w)).
Qed.

Lemma keydown_locked key w :
  isAnimating (carousel w) = true ->
  sameButHandle (carousel w) (carousel (keydown key w)).
Proof.
  intros H. unfold keydown.
  set (w1 := if String.eqb key "ArrowLeft" then prev w else w).
  assert (H1 : sameButHandle (carousel w) (carousel w1)).
  { subst w1. case_match; [by apply prev_locked | apply sameButHandle_refl]. }
  case_match; [|done].
  eapply sameButHandle_trans; [exact H1|]. apply next_locked.
  destruct H1 as (_&_&_&->&_). done.
Qed.

Lemma touchend_locked t w :
  isAnimating (carousel w) = true ->
  sameButHandle (carousel w) (carousel (touchend t w).2).
Proof.
  intros H. unfold touchend.
  destruct (isDragging t); cbn [snd]; [|apply sameButHandle_refl].
  repeat case_match; auto using next_locked, prev_locked, sameButHandle_refl.
Qed.

(** Under the lock every navigation input leaves the instance as it was,
    handle apart. *)
Lemma navigation_locked e t w t' w' :
  navigation e = true -> isAnimating (carousel w) = true ->
  widgetEvent e t w = Some (t', w') ->
  sameButHandle (carousel w) (carousel w').
Proof.
  intros Hn Hl He. destruct e; try discriminate Hn; cbn [widgetEvent] in He.
  - injection He as _ <-. by apply next_locked.
  - injection He as _ <-. by apply prev_locked.
  - case_bool_decide; [|discriminate]. injection He as _ <-. by apply goToSlide_locked.
  - injection He as _ <-. by apply keydown_locked.
  - injection He as He. replace w' with (touchend t w).2 by (by rewrite He).
    by apply touchend_locked.
Qed.

Lemma updateCarousel_animated_locks index w :
  isAnimating (carousel (updateCarousel index true w)) = true.
Proof.
  destruct (isAnimating (carousel w)) eqn:Hl.
  - by rewrite updateCarousel_locked.
  - apply updateCarousel_lock. by rewrite Hl.
Qed.

Lemma resetAutoplay_after_update index w :
  isAnimating (carousel (resetAutoplay (updateCarousel index true w))) = true.
Proof.
  destruct (resetAutoplay_same (updateCarousel index true w)) as (_&_&_&->&_).
  apply updateCarousel_animated_locks.
Qed.

(** A navigation input either leaves the instance exactly as it was or
    leaves the lock set. *)
Lemma navigation_takes_lock e t w t' w' :
  navigation e = true -> widgetEvent e t w = Some (t', w') ->
  carousel w' = carousel w \/ isAnimating (carousel w') = true.
Proof.
  assert (Hnext : forall w, carousel (next w) = carousel w \/
                            isAnimating (carousel (next w)) = true).
  { intros v. unfold next. case_match; [right|by left].
    apply resetAutoplay_after_update. }
  assert (Hprev : forall w, carousel (prev w) = carousel w \/
                            isAnimating (carousel (prev w)) = true).
  { intros v. unfold prev. case_match; [right|by left].
    apply resetAutoplay_after_update. }
  intros Hn He. destruct e; try discriminate Hn; cbn [widgetEvent] in He.
  - injection He as _ <-. apply Hnext.
  - injection He as _ <-. apply Hprev.
  - case_bool_decide; [|discriminate]. injection He as _ <-. right.
    apply resetAutoplay_after_update.
  - injection He as _ <-. unfold keydown.
    set (w1 := if String.eqb key "ArrowLeft" then prev w else w).
    assert (H1 : carousel w1 = carousel w \/ isAnimating (carousel w1) = true).
    { subst w1. case_match; [apply Hprev|by left]. }
    case_match; [|exact H1].
    unfold next. case_match; [right; apply resetAutoplay_after_update|exact H1].
  - injection He as He. replace w' with (touchend t w).2 by (by rewrite He).
    unfold touchend. destruct (isDragging t); cbn [snd]; [|by left].
    repeat case_match; auto.
Qed.

(** C5: while [isAnimating] is set, an animated [updateCarousel] returns
    the instance and the timer table as they were, and every navigation
    input (buttons, indicator, arrow keys, swipe) leaves the current index,
    the track offset, the indicators and the buttons as they were and the
    lock still set; when the pending unlock handler later runs it only
    clears the lock, so the dropped navigation has no delayed effect.  A
    navigation that changes what is shown leaves the lock set, so of two
    navigations issued before the unlock only the first changes
    [currentIndex]. *)
Theorem locked_navigation_dropped :
  (forall (p p' : Page) (e : Event),
     locked p -> navigation e = true -> step p e = Some p' ->
     (forall k index, container p = Some k ->
        carousel (updateCarousel index true (worldOf p k)) = instance k /\
        browser (updateCarousel index true (worldOf p k)) = page_browser p) /\
     view p' = view p /\ locked p' /\
     (forall dt id t p1 p2,
        step p' (Elapse dt) = Some p1 ->
        timers (page_browser p1) !! id = Some t -> callback t = UnlockAnimation ->
        step p1 (Fire id) = Some p2 ->
        view p2 = view p /\ ~ locked p2)) /\
  (forall (p0 p1 : Page) (e1 : Event),
     navigation e1 = true -> step p0 e1 = Some p1 -> view p1 <> view p0 ->
     locked p1).
Proof.
  split.
  - intros p p' e (k & Hk & Hl) Hn Hs.
    split.
    { intros k0 index Hk0. rewrite Hk in Hk0. injection Hk0 as <-.
      rewrite updateCarousel_locked by done. done. }
    assert (Hw : exists t' w', widgetEvent e (touch k) (worldOf p k) = Some (t', w')
                               /\ p' = putWorld t' w' p k).
    { destruct e; try discriminate Hn; cbn [step] in Hs; rewrite Hk in Hs;
        (destruct (widgetEvent _ _ _) as [[t' w']|] eqn:He; [|discriminate]);
        injection Hs as <-; eauto. }
    destruct Hw as (t' & w' & He & ->).
    pose proof (navigation_locked e (touch k) (worldOf p k) t' w' Hn Hl He) as Hsame.
    assert (Hv : view (putWorld t' w' p k) = view p).
    { unfold view. rewrite Hk. cbn. f_equal. by apply sameButHandle_visual. }
    assert (Hl' : isAnimating (carousel w') = true).
    { destruct Hsame as (_&_&_&->&_). exact Hl. }
    split; [exact Hv|]. split.
    { eexists. split; [reflexivity|]. exact Hl'. }
    intros dt id t p1 p2 Hdt Ht Hcb Hf.
    cbn [step] in Hdt. destruct (0 <=? dt); [|discriminate]. injection Hdt as <-.
    cbn [step] in Hf. unfold fire in Hf. rewrite Ht, Hcb in Hf.
    destruct (due t <=? _); [|discriminate]. injection Hf as <-.
    split.
    + rewrite <- Hv. reflexivity.
    + intros (k'' & Hk'' & Hl''). cbn in Hk''. injection Hk'' as <-.
      discriminate Hl''.
  - intros p0 p1 e1 Hn Hs Hv.
    destruct (container p0) as [k|] eqn:Hk.
    2: { destruct e1; try discriminate Hn; cbn [step] in Hs; rewrite Hk in Hs;
         discriminate Hs. }
    assert (Hw : exists t' w', widgetEvent e1 (touch k) (worldOf p0 k) = Some (t', w')
                               /\ p1 = putWorld t' w' p0 k).
    { destruct e1; try discriminate Hn; cbn [step] in Hs; rewrite Hk in Hs;
        (destruct (widgetEvent _ _ _) as [[t' w']|] eqn:He; [|discriminate]);
        injection Hs as <-; eauto. }
    destruct Hw as (t' & w' & He & ->).
    destruct (navigation_takes_lock _ _ _ _ _ Hn He) as [Hsame|Hl].
    + exfalso. apply Hv. unfold view. rewrite Hk. cbn. by rewrite Hsame.
    + eexists. split; [reflexivity|]. exact Hl.
Qed.

(** C5, witness: on the demo page "next" then "previous" are clicked at
    once; index and DOM after the second click, and after the unlock
    timeout has run 500 ms later, are those left by the first click. *)
Lemma locked_navigation_dropped_witness :
  view (after [ClickNext; ClickPrev]) = view (after [ClickNext]) /\
  view (after [ClickNext; ClickPrev; Elapse 500; Fire 2%positive]) =
  view (after [ClickNext]).
Proof.
  destruct locked_navigation_dropped as [Hdrop Htake].
  assert (Hl : locked (after [ClickNext])).
  { apply (Htake (after []) _ ClickNext eq_refl); [vm_compute; reflexivity|].
    vm_compute. discriminate. }
  assert (Hs : step (after [ClickNext]) ClickPrev = Some (after [ClickNext; ClickPrev]))
    by (vm_compute; reflexivity).
  destruct (Hdrop _ _ ClickPrev Hl eq_refl Hs) as (_ & Hv & _ & Hu).
  split; [exact Hv|].
  refine (proj1 (Hu 500 2%positive
                    {| due := 500; period := None; callback := UnlockAnimation |}
                    (after [ClickNext; ClickPrev; Elapse 500])
                    (after [ClickNext; ClickPrev; Elapse 500; Fire 2%positive])
                    _ _ eq_refl _)); vm_compute; reflexivity.
Defined.

(* ===================================================================== *)
(** ** Invariants of reachable pages *)
(* ===================================================================== *)

Section Invariant.
Variable mk : Markup.
Variable I : World -> Prop.

Hypothesis I_init : I (initialWorld mk).
Hypothesis I_next : forall w, I w -> I (next w).
Hypothesis I_prev : forall w, I w -> I (prev w).
Hypothesis I_goTo : forall w (i : nat),
    (i < length (indicators (dom (carousel w))))%nat ->
    I w -> I (goToSlide (Z.of_nat i) w).
Hypothesis I_stop : forall w, I w -> I (stopAutoplay w).
Hypothesis I_start : forall w, I w -> I (startAutoplay w).
Hypothesis I_unlock : forall w, I w -> I (unlockAnimation w).
Hypothesis I_tick : forall w, I w -> I (autoplayTick w).
Hypothesis I_timers : forall w b, I w -> timerOp (browser w) b -> I (set_browser b w).

Local Abbreviation holds := (holds I).

Lemma I_keydown key w : I w -> I (keydown key w).
Proof. intros H. unfold keydown. repeat case_match; auto. Qed.

Lemma I_touchend t w : I w -> I (touchend t w).2.
Proof. intros H. unfold touchend. repeat case_match; cbn [snd]; auto. Qed.

Lemma I_widget e t w t' w' :
  I w -> widgetEvent e t w = Some (t', w') -> I w'.
Proof.
  intros H He. destruct e; cbn [widgetEvent] in He; try discriminate He;
    try (injection He as _ <-; auto using I_keydown).
  - case_bool_decide; [|discriminate]. injection He as _ <-. auto.
  - injection He as He. replace w' with (touchend t w).2 by (by rewrite He).
    by apply I_touchend.
Qed.

Lemma holds_putWorld t w p k :
  carouselInstance k = None -> I w -> holds (putWorld t w p k).
Proof.
  intros Hn HI. eexists. split; [reflexivity|]. split; [exact Hn|].
  by destruct w.
Qed.

Lemma holds_timers p b :
  holds p -> timerOp (page_browser p) b -> holds (with_browser (fun _ => b) p).
Proof.
  intros (k & Hk & Hn & HI) Hop. exists k. split; [done|]. split; [done|].
  exact (I_timers (worldOf p k) b HI Hop).
Qed.

Lemma holds_onWorld f p :
  (forall w, I w -> I (f w)) -> holds p -> holds (onWorld f p).
Proof.
  intros Hf (k & Hk & Hn & HI). unfold onWorld. rewrite Hk.
  apply holds_putWorld; [exact Hn|]. apply Hf, HI.
Qed.

Lemma holds_resizeSync p : holds p -> resizeSync p = p.
Proof. intros (k & Hk & Hn & _). unfold resizeSync. by rewrite Hk, Hn. Qed.

Lemma holds_step p e p' : holds p -> step p e = Some p' -> holds p'.
Proof.
  intros Hp Hs. destruct e; cbn [step] in Hs.
  1-9: destruct Hp as (k & Hk & Hn & HI); rewrite Hk in Hs;
       (destruct (widgetEvent _ _ _) as [[t' w']|] eqn:E; [|discriminate]);
       injection Hs as <-; apply holds_putWorld; [exact Hn|];
       exact (I_widget _ _ _ _ _ HI E).
  - injection Hs as <-. unfold onResize.
    destruct (resizeTimer p) as [id|].
    + pose proof (holds_timers p _ Hp (op_clear _ id)) as H1.
      destruct H1 as (k & Hk & Hn & HI). exists k. split; [done|]. split; [done|].
      exact (I_timers _ _ HI (op_resize _)).
    + destruct Hp as (k & Hk & Hn & HI). exists k. split; [done|]. split; [done|].
      exact (I_timers _ _ HI (op_resize _)).
  - unfold fire in Hs.
    destruct (timers (page_browser p) !! id) as [t|]; [|discriminate].
    destruct (due t <=? _); [|discriminate]. injection Hs as <-.
    assert (Hc : holds (runCallback (callback t) p)).
    { destruct (callback t); cbn [runCallback].
      - by apply holds_onWorld.
      - by apply holds_onWorld.
      - by rewrite holds_resizeSync. }
    exact (holds_timers _ _ Hc (op_settle _ id)).
  - destruct (0 <=? dt); [|discriminate]. injection Hs as <-.
    exact (holds_timers _ _ Hp (op_advance _ dt)).
Qed.

Lemma holds_reachable p : reachable (Some mk) p -> holds p.
Proof.
  induction 1 as [|p e p' _ IH Hs].
  - eexists. split; [reflexivity|]. split; [reflexivity|]. exact I_init.
  - exact (holds_step _ _ _ IH Hs).
Qed.
End Invariant.

Lemma run_reachable m p es p' :
  reachable m p -> run p es = Some p' -> reachable m p'.
Proof.
  revert p. induction es as [|e es IH]; intros p Hp Hr; cbn [run] in Hr.
  - by injection Hr as <-.
  - destruct (step p e) as [p1|] eqn:Hs; [|discriminate].
    eapply IH; [|exact Hr]. by eapply reach_step.
Qed.

(* ===================================================================== *)
(** ** The index stays in range *)
(* ===================================================================== *)

Lemma sameButHandle_rangeInv mk w w' :
  sameButHandle (carousel w) (carousel w') -> rangeInv mk w -> rangeInv mk w'.
Proof.
  intros (Hd & Hs & Hi & _) [[H1 H2] H3]. unfold rangeInv, shaped, indexInRange.
  rewrite Hd, Hs, Hi. done.
Qed.

Lemma updateCarousel_rangeInv mk index animate w :
  0 <= index < Z.of_nat (slides_length (carousel w)) ->
  rangeInv mk w -> rangeInv mk (updateCarousel index animate w).
Proof.
  intros Hr [[H1 H2] H3]. split; [split|].
  - by rewrite updateCarousel_slides.
  - by rewrite updateCarousel_indicator_count.
  - unfold indexInRange. rewrite updateCarousel_slides.
    destruct (isAnimating (carousel w) && animate) eqn:Hg.
    + apply andb_prop in Hg as [Hl ->]. by rewrite updateCarousel_locked.
    + by rewrite updateCarousel_index.
Qed.

Lemma next_rangeInv mk w : rangeInv mk w -> rangeInv mk (next w).
Proof.
  intros H. unfold next. destruct (Z.ltb_spec (currentIndex (carousel w)) (lastIndex (carousel w))) as [Hlt|]; [|done].
  eapply sameButHandle_rangeInv; [apply resetAutoplay_same|].
  apply updateCarousel_rangeInv; [|done].
  destruct H as [_ H]. unfold indexInRange, lastIndex in *. lia.
Qed.

Lemma prev_rangeInv mk w : rangeInv mk w -> rangeInv mk (prev w).
Proof.
  intros H. unfold prev. destruct (Z.gtb_spec (currentIndex (carousel w)) 0) as [Hgt|]; [|done].
  eapply sameButHandle_rangeInv; [apply resetAutoplay_same|].
  apply updateCarousel_rangeInv; [|done].
  destruct H as [_ H]. unfold indexInRange in *. lia.
Qed.

Lemma goToSlide_rangeInv mk w (i : nat) :
  (length (indicatorElements mk) <= slideElements mk)%nat ->
  (i < length (indicators (dom (carousel w))))%nat ->
  rangeInv mk w -> rangeInv mk (goToSlide (Z.of_nat i) w).
Proof.
  intros Hwf Hi H. unfold goToSlide.
  eapply sameButHandle_rangeInv; [apply resetAutoplay_same|].
  apply updateCarousel_rangeInv; [|done].
  destruct H as [[H1 H2] _]. lia.
Qed.

Lemma autoplayTick_rangeInv mk w :
  (1 <= slideElements mk)%nat -> rangeInv mk w -> rangeInv mk (autoplayTick w).
Proof.
  intros Hwf H. unfold autoplayTick. case_match; [by apply next_rangeInv|].
  apply updateCarousel_rangeInv; [|done]. destruct H as [[H1 _] _]. lia.
Qed.

Lemma rangeInv_reachable mk p :
  wellFormed mk -> reachable (Some mk) p -> holds (rangeInv mk) p.
Proof.
  intros [Hs Hi]. apply holds_reachable.
  - unfold initialWorld, init.
    eapply sameButHandle_rangeInv; [apply startAutoplay_same|].
    apply updateCarousel_rangeInv; [cbn; lia|].
    split; [by split|]. unfold indexInRange. cbn. lia.
  - apply next_rangeInv.
  - apply prev_rangeInv.
  - intros w i. by apply goToSlide_rangeInv.
  - intros w. apply sameButHandle_rangeInv, stopAutoplay_same.
  - intros w. apply sameButHandle_rangeInv, startAutoplay_same.
  - intros w. done.
  - intros w. by apply autoplayTick_rangeInv.
  - intros w b H _. exact H.
Qed.


(** With one indicator more than slides, clicking the last indicator takes
    the page itself out of range. *)
Lemma excess_indicator_breaks_range :
  exists p k, reachable (Some excessMarkup) p /\ container p = Some k /\
              ~ indexInRange (instance k).
Proof.
  destruct (run (load (Some excessMarkup)) [ClickIndicator 3]) as [p|] eqn:Hr;
    [|by vm_compute in Hr].
  pose proof (run_reachable _ _ _ _ (reach_load _) Hr) as Hp.
  vm_compute in Hr. injection Hr as <-.
  eexists _, _. split; [exact Hp|]. split; [reflexivity|].
  unfold indexInRange. cbn. lia.
Qed.



(* ===================================================================== *)
(** ** Timer handles are issued once *)
(* ===================================================================== *)

Lemma setTimer_fresh cb d r b : freshTimers b -> freshTimers (setTimer cb d r b).2.
Proof.
  intros H id t. cbn. rewrite lookup_insert. case_decide as E.
  - intros _. subst id. lia.
  - intros Ht. apply H in Ht. lia.
Qed.

Lemma clearTimer_fresh id b : freshTimers b -> freshTimers (clearTimer id b).
Proof.
  intros H j t. cbn. rewrite lookup_delete. case_decide; [done|]. apply H.
Qed.

Lemma settle_fresh id b : freshTimers b -> freshTimers (settle id b).
Proof.
  intros H. unfold settle. destruct (timers b !! id) as [t|] eqn:Ht; [|done].
  destruct (period t); [|by apply clearTimer_fresh].
  intros j t'. cbn. rewrite lookup_insert. case_decide as E.
  - intros _. subst j. by apply H in Ht.
  - apply H.
Qed.

Lemma settle_lookup_ne id j b : id <> j -> timers (settle id b) !! j = timers b !! j.
Proof.
  intros Hne. unfold settle. destruct (timers b !! id) as [t|]; [|done].
  destruct (period t); cbn.
  - by rewrite lookup_insert_ne.
  - by rewrite lookup_delete_ne.
Qed.

Lemma settle_absent id b : timers b !! id = None -> settle id b = b.
Proof. intros H. unfold settle. by rewrite H. Qed.

Lemma updateCarousel_browser index animate w :
  browser (updateCarousel index animate w) =
  if negb (isAnimating (carousel w)) && animate
  then (setTimeout UnlockAnimation 500 (browser w)).2
  else browser w.
Proof.
  unfold updateCarousel. cbn. by destruct (isAnimating (carousel w)), animate.
Qed.

Lemma updateCarousel_fresh index animate w : fresh w -> fresh (updateCarousel index animate w).
Proof.
  intros (Ht & Hh & Hd). unfold fresh.
  rewrite updateCarousel_browser, updateCarousel_handle, updateCarousel_delay.
  destruct (negb _ && animate); [|done].
  split; [by apply setTimer_fresh|]. split; [|done].
  intros id Hid. apply Hh in Hid. cbn. lia.
Qed.

Lemma stopAutoplay_fresh w : fresh w -> fresh (stopAutoplay w).
Proof.
  intros H. unfold stopAutoplay.
  destruct (autoplayInterval (carousel w)) as [id|] eqn:E; [|done].
  destruct H as (Ht & Hh & Hd).
  split; [cbn; by apply clearTimer_fresh|]. split; [|done]. intros j. discriminate.
Qed.

Lemma startAutoplay_fresh w : fresh w -> fresh (startAutoplay w).
Proof.
  intros (Ht & Hh & Hd).
  split; [exact (setTimer_fresh AutoplayTick _ true _ Ht)|]. split; [|done].
  intros id [= <-]. cbn. lia.
Qed.

Lemma resetAutoplay_fresh w : fresh w -> fresh (resetAutoplay w).
Proof. intros H. by apply startAutoplay_fresh, stopAutoplay_fresh. Qed.

Lemma next_fresh w : fresh w -> fresh (next w).
Proof.
  intros H. unfold next. case_match; [|done].
  by apply resetAutoplay_fresh, updateCarousel_fresh.
Qed.

Lemma prev_fresh w : fresh w -> fresh (prev w).
Proof.
  intros H. unfold prev. case_match; [|done].
  by apply resetAutoplay_fresh, updateCarousel_fresh.
Qed.

Lemma timerOp_fresh w b : fresh w -> timerOp (browser w) b -> fresh (set_browser b w).
Proof.
  intros (Ht & Hh & Hd) Hop. destruct Hop as [dt|id|id|]; (split; [|split; [|done]]).
  - done.
  - done.
  - by apply settle_fresh.
  - intros j Hj. unfold settle. cbn.
    destruct (timers (browser w) !! id) as [t|]; [|by apply Hh].
    destruct (period t); by apply Hh.
  - by apply clearTimer_fresh.
  - done.
  - by apply setTimer_fresh.
  - intros j Hj. apply Hh in Hj. cbn. lia.
Qed.

Lemma fresh_reachable mk p : reachable (Some mk) p -> holds fresh p.
Proof.
  apply holds_reachable.
  - unfold initialWorld, init. apply startAutoplay_fresh, updateCarousel_fresh.
    split; [|split; [|done]]; [intros id t; cbn; by rewrite lookup_empty|done].
  - apply next_fresh.
  - apply prev_fresh.
  - intros w i _ H. by apply resetAutoplay_fresh, updateCarousel_fresh.
  - apply stopAutoplay_fresh.
  - apply startAutoplay_fresh.
  - intros w H. exact H.
  - intros w H. unfold autoplayTick. case_match; [by apply next_fresh|].
    by apply updateCarousel_fresh.
  - apply timerOp_fresh.
Qed.

(* ===================================================================== *)
(** ** The autoplay tick *)
(* ===================================================================== *)

Lemma resetAutoplay_effect w :
  autoplayInterval (carousel (resetAutoplay w)) = Some (nextId (browser w)) /\
  now (browser (resetAutoplay w)) = now (browser w) /\
  timers (browser (resetAutoplay w)) =
    <[nextId (browser w) :=
        {| due := now (browser w) + autoplayDelay (carousel w);
           period := Some (autoplayDelay (carousel w));
           callback := AutoplayTick |}]>
      (match autoplayInterval (carousel w) with
       | Some old => delete old (timers (browser w))
       | None => timers (browser w)
       end).
Proof.
  unfold resetAutoplay, stopAutoplay.
  by destruct (autoplayInterval (carousel w)).
Qed.

Lemma updateCarousel_nextId index animate w :
  (nextId (browser w) <= nextId (browser (updateCarousel index animate w)))%positive.
Proof.
  rewrite updateCarousel_browser. destruct (negb _ && animate); cbn; lia.
Qed.

Lemma updateCarousel_now index animate w :
  now (browser (updateCarousel index animate w)) = now (browser w).
Proof. rewrite updateCarousel_browser. by destruct (negb _ && animate). Qed.

(** C3, counterexample: five seconds after loading the demo page the first
    tick fires from interval 1, which is also the handle; afterwards the
    handle is 3, so the timer behind the tick was stopped and another one
    started. *)
Lemma tick_keeps_timer_fails : ~ tick_keeps_timer.
Proof.
  intros H.
  assert (Hp : reachable (Some demoMarkup) (after [Elapse 5000])).
  { apply (run_reachable _ _ [Elapse 5000] _ (reach_load _)). vm_compute. reflexivity. }
  destruct (H demoMarkup (after [Elapse 5000]) (after [Elapse 5000; Fire 1%positive])
              _ 1%positive (autoplayTimer 0) Hp eq_refl)
    as (k' & Hk' & _ & Hh & _); try (vm_compute; reflexivity).
  vm_compute in Hk'. injection Hk' as <-. vm_compute in Hh. discriminate.
Qed.

(** C3, amended: when an autoplay interval fires and [currentIndex] is
    below the last index, the handler runs [next()] in full: the index
    advances by one if the animation lock is clear (and stays if it is
    set), and autoplay is reset -- the interval held in the handle is
    cleared and is no longer live afterwards, and a newly issued interval,
    due a full delay (5000 ms) after the tick, becomes the handle. *)
Theorem tick_runs_next_and_resets
    (mk : Markup) (p p' : Page) (k : Container) (id : positive) (t : Timer) :
  reachable (Some mk) p -> container p = Some k ->
  timers (page_browser p) !! id = Some t -> callback t = AutoplayTick ->
  currentIndex (instance k) < lastIndex (instance k) ->
  step p (Fire id) = Some p' ->
  exists k' new,
    container p' = Some k' /\
    instance k' = carousel (next (worldOf p k)) /\
    currentIndex (instance k') =
      (if isAnimating (instance k) then currentIndex (instance k)
       else currentIndex (instance k) + 1) /\
    autoplayInterval (instance k') = Some new /\
    timers (page_browser p) !! new = None /\
    timers (page_browser p') !! new = Some (autoplayTimer (now (page_browser p))) /\
    (forall old, autoplayInterval (instance k) = Some old ->
                 timers (page_browser p') !! old = None).
Proof.
  intros Hp Hk Ht Hcb Hlt Hs.
  destruct (fresh_reachable mk p Hp) as (k0 & Hk0 & _ & Hfresh).
  rewrite Hk in Hk0. injection Hk0 as <-.
  cbn [step] in Hs. unfold fire in Hs. rewrite Ht, Hcb in Hs.
  destruct (due t <=? _); [|discriminate]. injection Hs as <-.
  cbn [runCallback]. unfold onWorld. rewrite Hk.
  set (w := worldOf p k) in *.
  assert (Hlt' : (currentIndex (carousel w) <? lastIndex (carousel w)) = true)
    by (apply Z.ltb_lt; exact Hlt).
  assert (Htick : autoplayTick w = next w).
  { unfold autoplayTick. by rewrite Hlt'. }
  rewrite Htick.
  assert (Hnext : next w = resetAutoplay (updateCarousel (currentIndex (carousel w) + 1) true w)).
  { unfold next. by rewrite Hlt'. }
  set (w1 := updateCarousel (currentIndex (carousel w) + 1) true w) in *.
  pose proof (updateCarousel_fresh (currentIndex (carousel w) + 1) true w Hfresh)
    as (Ht1 & Hh1 & Hd1). fold w1 in Ht1, Hh1, Hd1.
  destruct (resetAutoplay_effect w1) as (Hnew & Hnow & Htim).
  pose proof (updateCarousel_nextId (currentIndex (carousel w) + 1) true w) as Hle.
  fold w1 in Hle.
  destruct Hfresh as (Ht0 & Hh0 & Hd0).
  assert (Hid : id <> nextId (browser w1)).
  { apply Ht0 in Ht. lia. }
  exists {| carouselInstance := carouselInstance k;
            instance := carousel (next w);
            touch := touch k;
            log := calls (next w) |}, (nextId (browser w1)).
  cbn [container with_browser putWorld page_browser instance].
  split; [done|]. split; [done|]. split.
  { rewrite Hnext.
    destruct (resetAutoplay_same w1) as (_ & _ & -> & _).
    subst w1. destruct (isAnimating (instance k)) eqn:Hl.
    - by rewrite updateCarousel_locked.
    - apply updateCarousel_index. cbn. by rewrite Hl. }
  split; [by rewrite Hnext|]. split.
  { destruct (timers (page_browser p) !! nextId (browser w1)) as [t'|] eqn:E; [|done].
    apply Ht0 in E. lia. }
  split.
  { rewrite settle_lookup_ne by done. rewrite Hnext, Htim, lookup_insert_eq.
    unfold autoplayTimer. rewrite Hd1. subst w1. by rewrite updateCarousel_now. }
  intros old Hold.
  assert (Hold1 : autoplayInterval (carousel w1) = Some old).
  { subst w1. by rewrite updateCarousel_handle. }
  assert (Hgone : timers (browser (next w)) !! old = None).
  { rewrite Hnext, Htim, Hold1. apply Hh1 in Hold1.
    rewrite lookup_insert_ne by lia. apply lookup_delete_eq. }
  destruct (decide (id = old)) as [->|Hne].
  - by rewrite settle_absent.
  - by rewrite settle_lookup_ne.
Qed.

(** C3, witness: the first tick on the demo page, five seconds after
    loading. *)
Lemma tick_runs_next_and_resets_witness :
  exists k' new,
    container (after [Elapse 5000; Fire 1%positive]) = Some k' /\
    currentIndex (instance k') = 1 /\
    autoplayInterval (instance k') = Some new /\
    timers (page_browser (after [Elapse 5000; Fire 1%positive])) !! 1%positive = None.
Proof.
  assert (Hp : reachable (Some demoMarkup) (after [Elapse 5000])).
  { apply (run_reachable _ _ [Elapse 5000] _ (reach_load _)). vm_compute. reflexivity. }
  assert (Hk : exists k, container (after [Elapse 5000]) = Some k /\
                         autoplayInterval (instance k) = Some 1%positive /\
                         isAnimating (instance k) = false /\
                         currentIndex (instance k) = 0 /\
                         currentIndex (instance k) < lastIndex (instance k)).
  { eexists. split; [vm_compute; reflexivity|]. repeat split. }
  destruct Hk as (k & Hk & Hh & Hl & Hi & Hlt).
  destruct (tick_runs_next_and_resets demoMarkup (after [Elapse 5000])
              (after [Elapse 5000; Fire 1%positive]) k 1%positive (autoplayTimer 0)
              Hp Hk)
    as (k' & new & Hk' & _ & Hidx & Hnew & _ & _ & Hold);
    try (vm_compute; reflexivity); [exact Hlt|].
  exists k', new. split; [exact Hk'|]. split; [|split; [exact Hnew|exact (Hold _ Hh)]].
  rewrite Hidx, Hl, Hi. reflexivity.
Defined.

(* ===================================================================== *)
(** ** The resize timeout is debounced *)
(* ===================================================================== *)

Lemma addsNoResize_refl b : addsNoResize b b.
Proof. by intros id t. Qed.

Lemma addsNoResize_trans b1 b2 b3 :
  addsNoResize b1 b2 -> addsNoResize b2 b3 -> addsNoResize b1 b3.
Proof. intros H12 H23 id t Ht Hcb. apply H12; [|done]. by apply H23. Qed.

Lemma setTimer_addsNoResize cb d r b :
  cb <> ResizeSync -> addsNoResize b (setTimer cb d r b).2.
Proof.
  intros Hcb id t. cbn. rewrite lookup_insert. case_decide; [|done].
  intros [= <-]. done.
Qed.

Lemma clearTimer_addsNoResize id b : addsNoResize b (clearTimer id b).
Proof. intros j t. cbn. rewrite lookup_delete. by case_decide. Qed.

Lemma updateCarousel_addsNoResize index animate w :
  addsNoResize (browser w) (browser (updateCarousel index animate w)).
Proof.
  rewrite updateCarousel_browser. destruct (negb _ && animate).
  - by apply setTimer_addsNoResize.
  - apply addsNoResize_refl.
Qed.

Lemma startAutoplay_addsNoResize w :
  addsNoResize (browser w) (browser (startAutoplay w)).
Proof. by apply (setTimer_addsNoResize AutoplayTick). Qed.

Lemma stopAutoplay_addsNoResize w :
  addsNoResize (browser w) (browser (stopAutoplay w)).
Proof.
  unfold stopAutoplay. destruct (autoplayInterval (carousel w)).
  - apply clearTimer_addsNoResize.
  - apply addsNoResize_refl.
Qed.

Lemma resetAutoplay_addsNoResize w :
  addsNoResize (browser w) (browser (resetAutoplay w)).
Proof.
  eapply addsNoResize_trans;
    [apply stopAutoplay_addsNoResize | apply startAutoplay_addsNoResize].
Qed.

Lemma goToSlide_addsNoResize index w :
  addsNoResize (browser w) (browser (goToSlide index w)).
Proof.
  eapply addsNoResize_trans;
    [apply updateCarousel_addsNoResize | apply resetAutoplay_addsNoResize].
Qed.

Lemma next_addsNoResize w : addsNoResize (browser w) (browser (next w)).
Proof.
  unfold next. case_match; [|apply addsNoResize_refl].
  apply goToSlide_addsNoResize.
Qed.

Lemma prev_addsNoResize w : addsNoResize (browser w) (browser (prev w)).
Proof.
  unfold prev. case_match; [|apply addsNoResize_refl].
  apply goToSlide_addsNoResize.
Qed.

Lemma widgetEvent_addsNoResize e t w t' w' :
  widgetEvent e t w = Some (t', w') -> addsNoResize (browser w) (browser w').
Proof.
  intros He. destruct e; cbn [widgetEvent] in He; try discriminate He;
    try (injection He as _ <-);
    auto using next_addsNoResize, prev_addsNoResize, addsNoResize_refl,
               stopAutoplay_addsNoResize, startAutoplay_addsNoResize.
  - case_bool_decide; [|discriminate]. injection He as _ <-.
    apply goToSlide_addsNoResize.
  - unfold keydown. eapply addsNoResize_trans; [|case_match;
      [apply next_addsNoResize|apply addsNoResize_refl]].
    case_match; [apply prev_addsNoResize|apply addsNoResize_refl].
  - injection He as He. replace w' with (touchend t w).2 by (by rewrite He).
    unfold touchend. destruct (isDragging t); cbn [snd];
      repeat case_match;
      auto using next_addsNoResize, prev_addsNoResize, addsNoResize_refl.
Qed.

Lemma runCallback_addsNoResize cb p :
  addsNoResize (page_browser p) (page_browser (runCallback cb p)) /\
  resizeTimer (runCallback cb p) = resizeTimer p.
Proof.
  destruct (container p) as [k|] eqn:Hk.
  2: { destruct cb; cbn [runCallback]; unfold onWorld, resizeSync; rewrite Hk;
       (split; [apply addsNoResize_refl|done]). }
  destruct cb; cbn [runCallback]; unfold onWorld, resizeSync; rewrite Hk.
  - split; [apply addsNoResize_refl|done].
  - split; [|done]. cbn. unfold autoplayTick.
    case_match; [apply (next_addsNoResize (worldOf p k))|].
    apply (updateCarousel_addsNoResize 0 true (worldOf p k)).
  - destruct (carouselInstance k) as [[]|]; (split; [|done]).
    + apply (updateCarousel_addsNoResize _ false (worldOf p k)).
    + apply addsNoResize_refl.
Qed.

Lemma settle_debounced id b j t :
  timers (settle id b) !! j = Some t -> callback t = ResizeSync ->
  exists t0, timers b !! j = Some t0 /\ callback t0 = ResizeSync.
Proof.
  unfold settle. destruct (timers b !! id) as [t0|] eqn:E; [|by eauto].
  destruct (period t0); cbn.
  - rewrite lookup_insert. case_decide as Hj; [|by eauto].
    subst j. intros [= <-] Hcb. eauto.
  - rewrite lookup_delete. case_decide; [done|by eauto].
Qed.

Lemma initialBrowser_empty id : timers initialBrowser !! id = None.
Proof. apply lookup_empty. Qed.

(** At any time at most one resize timeout is pending: the one whose
    handle is in [resizeTimer]. *)
Lemma debounced_reachable m p : reachable m p -> debounced p.
Proof.
  induction 1 as [|p e p' _ IH Hs].
  - intros id t Ht Hcb. exfalso.
    assert (H0 : timers initialBrowser !! id = Some t).
    { destruct m as [mk|]; [|exact Ht].
      exact (addsNoResize_trans _ _ _
               (updateCarousel_addsNoResize 0 false _)
               (startAutoplay_addsNoResize _) id t Ht Hcb). }
    by rewrite initialBrowser_empty in H0.
  - destruct e; cbn [step] in Hs.
    1-9: destruct (container p) as [k|]; [|discriminate];
         (destruct (widgetEvent _ _ _) as [[t' w']|] eqn:E; [|discriminate]);
         injection Hs as <-; intros id t Ht Hcb;
         change (resizeTimer p = Some id);
         apply (IH id t); [|done];
         exact (widgetEvent_addsNoResize _ _ _ _ _ E id t Ht Hcb).
    + injection Hs as <-. intros id t. unfold onResize. cbn.
      rewrite lookup_insert. case_decide as Hid.
      * intros _ _. f_equal. destruct (resizeTimer p); cbn in *; congruence.
      * destruct (resizeTimer p) as [old|] eqn:Hold; cbn in *.
        -- rewrite lookup_delete. case_decide as Ho; [done|].
           intros Ht Hcb. pose proof (IH id t Ht Hcb). congruence.
        -- intros Ht Hcb. pose proof (IH id t Ht Hcb). congruence.
    + unfold fire in Hs.
      destruct (timers (page_browser p) !! id) as [t0|]; [|discriminate].
      destruct (due t0 <=? _); [|discriminate]. injection Hs as <-.
      destruct (runCallback_addsNoResize (callback t0) p) as [Ha Hr].
      intros j t Ht Hcb. cbn in *. rewrite Hr.
      destruct (settle_debounced _ _ _ _ Ht Hcb) as (t1 & Ht1 & Hcb1).
      apply (IH j t1); [|done]. by apply Ha.
    + destruct (0 <=? dt); [|discriminate]. injection Hs as <-. exact IH.
Qed.

(* ===================================================================== *)
(** ** The resize block *)
(* ===================================================================== *)

(** Nothing in the script assigns [carouselInstance]. *)
Lemma carouselInstance_never_set mk p :
  reachable (Some mk) p -> holds (fun _ => True) p.
Proof. apply holds_reachable; done. Qed.


(** C6, the code at the failing input: on the demo page two resize events
    100 ms apart are followed by 250 quiet milliseconds.  The first timeout
    (handle 2) has been cancelled, the second (handle 3) fires -- and the
    record of [updateCarousel] calls still holds only the call made by
    [init]: the handler reads [carouselInstance], finds nothing and makes
    no re-sync call. *)
Theorem resize_burst_makes_no_call :
  step (after resizeBurst) (Fire 2%positive) = None /\
  (exists p, step (after resizeBurst) (Fire 3%positive) = Some p /\
             pageCalls p = [(0, false)] /\
             container p = container (after resizeBurst)) /\
  pageCalls (after []) = [(0, false)].
Proof.
  split; [by vm_compute|]. split; [|by vm_compute].
  eexists. split; [by vm_compute|]. split; by vm_compute.
Qed.

(* ===================================================================== *)
(** ** Autoplay intervals *)
(* ===================================================================== *)

(** [startAutoplay] on a carousel whose handle is live leaves that interval
    running and adds another. *)
Lemma startAutoplay_leaks w old t :
  fresh w -> autoplayInterval (carousel w) = Some old ->
  timers (browser w) !! old = Some t ->
  exists new, new <> old /\
    autoplayInterval (carousel (startAutoplay w)) = Some new /\
    timers (browser (startAutoplay w)) !! old = Some t /\
    callback <$> timers (browser (startAutoplay w)) !! new = Some AutoplayTick.
Proof.
  intros (Ht & Hh & Hd) Hold Hlive. exists (nextId (browser w)).
  apply Hh in Hold.
  split; [lia|]. split; [done|]. cbn. split.
  - rewrite lookup_insert_ne by lia. done.
  - by rewrite lookup_insert_eq.
Qed.

(** C8, the code at the failing input: on the demo page the pointer enters
    the carousel (autoplay stopped), "next" is clicked (autoplay reset,
    interval 3 started) and the pointer leaves ([startAutoplay] again):
    intervals 3 and 4 are both live, and only 4 is held in the handle. *)
Theorem hover_click_leave_two_intervals :
  live AutoplayTick (page_browser (after hoverClickLeave)) = [3%positive; 4%positive] /\
  (exists k, container (after hoverClickLeave) = Some k /\
             autoplayInterval (instance k) = Some 4%positive) /\
  run (load (Some demoMarkup)) hoverClickLeave = Some (after hoverClickLeave).
Proof.
  split; [by vm_compute|]. split; [|by vm_compute].
  eexists. split; by vm_compute.
Qed.

(* ===================================================================== *)
(** ** The DOM follows the index *)
(* ===================================================================== *)

Lemma imap_mark_again index index' (l : list Indicator) :
  imap (mark index) (imap (mark index') l) = imap (mark index) l.
Proof.
  apply list_eq. intros i. rewrite !list_lookup_imap.
  by destruct (l !! i).
Qed.

Lemma sameButHandle_rendered c c' : sameButHandle c c' -> rendered c -> rendered c'.
Proof.
  intros (Hd & Hs & Hi & _) H. unfold rendered, lastIndex in *.
  rewrite Hd, Hs, Hi. exact H.
Qed.

Lemma updateCarousel_rendered index animate w :
  rendered (carousel w) -> rendered (carousel (updateCarousel index animate w)).
Proof.
  intros H. destruct (isAnimating (carousel w) && animate) eqn:Hg.
  - apply andb_prop in Hg as [Hl ->]. by rewrite updateCarousel_locked.
  - unfold rendered, lastIndex.
    rewrite updateCarousel_slides, (updateCarousel_index _ _ _ Hg),
      (updateCarousel_dom _ _ _ Hg). cbn [indicators].
    by rewrite imap_mark_again.
Qed.

Lemma updateCarousel_renderInv mk index animate w :
  renderInv mk w -> renderInv mk (updateCarousel index animate w).
Proof.
  intros [Hr [Hs Hi]]. split; [by apply updateCarousel_rendered|]. split.
  - by rewrite updateCarousel_slides.
  - by rewrite updateCarousel_indicator_count.
Qed.

Lemma sameButHandle_renderInv mk w w' :
  sameButHandle (carousel w) (carousel w') -> renderInv mk w -> renderInv mk w'.
Proof.
  intros Hsame [Hr [Hs Hi]]. split; [by eapply sameButHandle_rendered|].
  destruct Hsame as (Hd & Hl & _). unfold shaped. by rewrite Hd, Hl.
Qed.

Lemma goToSlide_renderInv mk index w : renderInv mk w -> renderInv mk (goToSlide index w).
Proof.
  intros H. eapply sameButHandle_renderInv; [apply resetAutoplay_same|].
  by apply updateCarousel_renderInv.
Qed.

Lemma renderInv_reachable mk p : reachable (Some mk) p -> holds (renderInv mk) p.
Proof.
  apply holds_reachable.
  - unfold initialWorld, init.
    eapply sameButHandle_renderInv; [apply startAutoplay_same|].
    split; [|split].
    + unfold rendered, lastIndex.
      rewrite updateCarousel_slides, updateCarousel_index, updateCarousel_dom by done.
      cbn [indicators]. by rewrite imap_mark_again.
    + by rewrite updateCarousel_slides.
    + by rewrite updateCarousel_indicator_count.
  - intros w H. unfold next. case_match; [by apply goToSlide_renderInv|done].
  - intros w H. unfold prev. case_match; [by apply goToSlide_renderInv|done].
  - intros w i _. apply goToSlide_renderInv.
  - intros w. apply sameButHandle_renderInv, stopAutoplay_same.
  - intros w. apply sameButHandle_renderInv, startAutoplay_same.
  - intros w H. exact H.
  - intros w H. unfold autoplayTick.
    case_match; [|by apply updateCarousel_renderInv].
    unfold next. case_match; [by apply goToSlide_renderInv|done].
  - intros w b H _. exact H.
Qed.

(** X1: in every state a session can reach -- mid-transition, after a
    dropped navigation, after any timer -- the DOM agrees with
    [currentIndex]: the track offset is [-currentIndex * 100], an indicator
    is active (and [aria-selected] "true") exactly when it sits at position
    [currentIndex], the previous button is disabled (and [aria-disabled])
    exactly at index 0 and the next button exactly at the last index; the
    slide count and the number of indicators are those found at
    construction. *)
Theorem dom_follows_index (mk : Markup) (p : Page) (k : Container) :
  reachable (Some mk) p -> container p = Some k ->
  let c := instance k in
  track_offset (dom c) = - currentIndex c * 100 /\
  (forall i ind, indicators (dom c) !! i = Some ind ->
     (active ind = true <-> Z.of_nat i = currentIndex c) /\
     (aria_selected ind = "true" <-> Z.of_nat i = currentIndex c)) /\
  (disabled (prevButton (dom c)) = true <-> currentIndex c = 0) /\
  (aria_disabled (prevButton (dom c)) = "true" <-> currentIndex c = 0) /\
  (disabled (nextButton (dom c)) = true <-> currentIndex c = lastIndex c) /\
  (aria_disabled (nextButton (dom c)) = "true" <-> currentIndex c = lastIndex c) /\
  slides_length c = slideElements mk /\
  length (indicators (dom c)) = length (indicatorElements mk).
Proof.
  intros Hp Hk c.
  destruct (renderInv_reachable mk p Hp) as (k' & Hk' & _ & Hr & Hs & Hi).
  rewrite Hk in Hk'. injection Hk' as <-.
  change (carousel (worldOf p k)) with c in Hr, Hs, Hi.
  unfold rendered in Hr.
  split; [by rewrite Hr|]. split.
  { intros i ind Hind. rewrite Hr in Hind. cbn [indicators] in Hind.
    apply mark_lookup in Hind as [-> ->]. rewrite attr_true. by rewrite Z.eqb_eq. }
  pose proof (f_equal prevButton Hr) as Hpb. pose proof (f_equal nextButton Hr) as Hnb.
  cbn [prevButton nextButton] in Hpb, Hnb. rewrite Hpb, Hnb.
  cbn [disabled aria_disabled]. rewrite !attr_true, !Z.eqb_eq. done.
Qed.

(** X1, witness: the demo page after "next", a dropped "previous", and
    the third indicator clicked once the transition is over. *)
Lemma dom_follows_index_witness :
  exists k,
    container (after [ClickNext; ClickPrev; Elapse 500; Fire 2%positive;
                      ClickIndicator 2]) = Some k /\
    currentIndex (instance k) = 2 /\
    track_offset (dom (instance k)) = -200.
Proof.
  set (es := [ClickNext; ClickPrev; Elapse 500; Fire 2%positive; ClickIndicator 2]).
  assert (Hp : reachable (Some demoMarkup) (after es)).
  { apply (run_reachable _ _ es _ (reach_load _)). vm_compute. reflexivity. }
  assert (Hk : exists k, container (after es) = Some k /\ currentIndex (instance k) = 2).
  { eexists. split; [vm_compute; reflexivity|reflexivity]. }
  destruct Hk as (k & Hk & Hi).
  exists k. split; [exact Hk|]. split; [exact Hi|].
  destruct (dom_follows_index demoMarkup (after es) k Hp Hk) as (Ho & _).
  rewrite Ho, Hi. reflexivity.
Defined.

(* ===================================================================== *)
(** ** Page steps as moves of the world *)
(* ===================================================================== *)

Lemma keydown_cases key w :
  keydown key w = w \/ keydown key w = prev w \/ keydown key w = next w.
Proof.
  unfold keydown.
  destruct (String.eqb_spec key "ArrowLeft") as [-> | ]; cbn; auto.
  destruct (String.eqb_spec key "ArrowRight"); auto.
Qed.

Lemma touchend_cases t w :
  (touchend t w).2 = w \/ (touchend t w).2 = prev w \/ (touchend t w).2 = next w.
Proof. unfold touchend. repeat case_match; cbn [snd]; auto. Qed.

Lemma widgetEvent_move e r t w t' w' :
  widgetEvent e t w = Some (t', w') -> move e (r, w) (r, w').
Proof.
  intros He. destruct e; cbn [widgetEvent] in He; try discriminate He.
  - injection He as _ <-. constructor.
  - injection He as _ <-. constructor.
  - case_bool_decide; [|discriminate]. injection He as _ <-. by constructor.
  - injection He as _ <-.
    destruct (keydown_cases key w) as [-> | [-> | ->] ]; constructor.
  - injection He as _ <-. constructor.
  - injection He as _ <-. constructor.
  - injection He as He. replace w' with (touchend t w).2 by (by rewrite He).
    destruct (touchend_cases t w) as [-> | [-> | ->] ]; constructor.
  - injection He as _ <-. constructor.
  - injection He as _ <-. constructor.
Qed.

Lemma worldOf_putWorld t w p k k' :
  container (putWorld t w p k) = Some k' -> worldOf (putWorld t w p k) k' = w.
Proof. intros [= <-]. by destruct w. Qed.

Lemma step_move p e p' k :
  container p = Some k -> carouselInstance k = None -> step p e = Some p' ->
  exists k', container p' = Some k' /\ carouselInstance k' = None /\
             move e (resizeTimer p, worldOf p k) (resizeTimer p', worldOf p' k').
Proof.
  intros Hk Hn Hs. destruct e; cbn [step] in Hs.
  1-9: rewrite Hk in Hs;
       (destruct (widgetEvent _ _ _) as [[t' w']|] eqn:E; [|discriminate]);
       injection Hs as <-; eexists; split; [reflexivity|]; split; [exact Hn|];
       rewrite worldOf_putWorld by reflexivity;
       exact (widgetEvent_move _ _ _ _ _ _ E).
  - injection Hs as <-. exists k. split; [exact Hk|]. split; [exact Hn|].
    pose proof (mv_resize (resizeTimer p) (worldOf p k)) as Hm.
    unfold onResize, resizeOp in *. cbn in *.
    by destruct (resizeTimer p).
  - unfold fire in Hs.
    destruct (timers (page_browser p) !! id) as [t|] eqn:Ht; [|discriminate].
    destruct (Z.leb_spec (due t) (now (page_browser p))) as [Hdue|]; [|discriminate].
    injection Hs as <-.
    pose proof (mv_fire id t (resizeTimer p) (worldOf p k) Ht Hdue) as Hm.
    destruct (callback t); cbn [runCallback handler] in *.
    + unfold onWorld. rewrite Hk. eexists. split; [reflexivity|]. split; [exact Hn|].
      exact Hm.
    + unfold onWorld. rewrite Hk. eexists. split; [reflexivity|]. split; [exact Hn|].
      exact Hm.
    + unfold resizeSync. rewrite Hk, Hn. exists k. split; [exact Hk|].
      split; [exact Hn|]. exact Hm.
  - destruct (Z.leb_spec 0 dt) as [Hdt|]; [|discriminate]. injection Hs as <-.
    exists k. split; [exact Hk|]. split; [exact Hn|].
    exact (mv_elapse dt (resizeTimer p) (worldOf p k) Hdt).
Qed.

(** An invariant of the moves allowed by [G] holds throughout the sessions
    guarded by [G]. *)
Lemma guarded_invariant G (Q : option positive * World -> Prop) mk :
  Q (None, initialWorld mk) ->
  (forall e s s', Q s -> G e s -> move e s s' -> Q s') ->
  forall p, guarded G mk p ->
  exists k, container p = Some k /\ carouselInstance k = None /\
            Q (resizeTimer p, worldOf p k).
Proof.
  intros Hinit Hstep p Hp. induction Hp as [|p e p' k _ IH Hk HG Hs].
  - eexists. split; [reflexivity|]. split; [reflexivity|]. exact Hinit.
  - destruct IH as (k0 & Hk0 & Hn & HQ). rewrite Hk in Hk0. injection Hk0 as <-.
    destruct (step_move _ _ _ _ Hk Hn Hs) as (k' & Hk' & Hn' & Hm).
    exists k'. split; [exact Hk'|]. split; [exact Hn'|].
    exact (Hstep _ _ _ HQ HG Hm).
Qed.

Lemma reachable_guarded mk p :
  reachable (Some mk) p -> guarded (fun _ _ => True) mk p.
Proof.
  induction 1 as [|p e p' Hp IH Hs]; [constructor|].
  destruct (carouselInstance_never_set mk p Hp) as (k & Hk & _).
  by eapply g_step.
Qed.

Lemma reachable_invariant (Q : option positive * World -> Prop) mk :
  Q (None, initialWorld mk) ->
  (forall e s s', Q s -> move e s s' -> Q s') ->
  forall p, reachable (Some mk) p ->
  exists k, container p = Some k /\ carouselInstance k = None /\
            Q (resizeTimer p, worldOf p k).
Proof.
  intros Hinit Hstep p Hp.
  apply (guarded_invariant (fun _ _ => True) Q mk Hinit); [|by apply reachable_guarded].
  intros e s s' HQ _. by apply Hstep.
Qed.

(* ===================================================================== *)
(** ** The wiring of timers, lock and handles *)
(* ===================================================================== *)

Lemma timerOk_unlocked t tm : timerOk t false tm -> callback tm <> UnlockAnimation.
Proof. unfold timerOk. intros H E. rewrite E in H. by destruct H as (_ & _ & ?). Qed.

Lemma timerOk_lock t lock lock' tm :
  callback tm <> UnlockAnimation -> timerOk t lock tm -> timerOk t lock' tm.
Proof. unfold timerOk. by destruct (callback tm). Qed.

Lemma timerOk_later t dt lock tm : 0 <= dt -> timerOk t lock tm -> timerOk (t + dt) lock tm.
Proof.
  unfold timerOk. intros Hdt. destruct (callback tm); intros H;
    repeat split; try tauto; lia.
Qed.

Lemma wiring_setUnlock b h r :
  wiring b false h r -> wiring (setTimer UnlockAnimation 500 false b).2 true h r.
Proof.
  intros [Hf Hh Hr Ht Hl Hu]. split; cbn.
  - exact (setTimer_fresh UnlockAnimation 500 false b Hf).
  - intros id Hid. destruct (Hh id Hid) as (t & Hlk & Hcb). exists t. split; [|done].
    rewrite lookup_insert_ne; [done|]. apply Hf in Hlk. lia.
  - intros id Hid. destruct (Hr id Hid) as [Hlt Hcb]. split; [lia|].
    intros t. rewrite lookup_insert_ne by lia. apply Hcb.
  - intros id t. rewrite lookup_insert. case_decide.
    + intros [= <-]. unfold timerOk. cbn. repeat split; lia.
    + intros Hlk. apply Ht in Hlk.
      apply (timerOk_lock _ false); [|done]. by eapply timerOk_unlocked.
  - intros _. eexists _, _. split; [apply lookup_insert_eq|done].
  - intros id1 t1 id2 t2. rewrite !lookup_insert. repeat case_decide; try congruence.
    + intros _ _ H2 Hc2. apply Ht, timerOk_unlocked in H2. done.
    + intros H1 Hc1. apply Ht, timerOk_unlocked in H1. done.
    + intros H1 Hc1. apply Ht, timerOk_unlocked in H1. done.
Qed.

Lemma wiring_setAutoplay b lock h r :
  wiring b lock h r ->
  wiring (setTimer AutoplayTick 5000 true b).2 lock (Some (nextId b)) r.
Proof.
  intros [Hf Hh Hr Ht Hl Hu]. split; cbn.
  - exact (setTimer_fresh AutoplayTick 5000 true b Hf).
  - intros id [= <-]. eexists. split; [apply lookup_insert_eq|done].
  - intros id Hid. destruct (Hr id Hid) as [Hlt Hcb]. split; [lia|].
    intros t. rewrite lookup_insert_ne by lia. apply Hcb.
  - intros id t. rewrite lookup_insert. case_decide.
    + intros [= <-]. unfold timerOk. cbn. split; [done|lia].
    + apply Ht.
  - intros Hlock. destruct (Hl Hlock) as (id & t & Hlk & Hcb). exists id, t.
    split; [|done]. rewrite lookup_insert_ne; [done|]. apply Hf in Hlk. lia.
  - intros id1 t1 id2 t2. rewrite !lookup_insert. repeat case_decide.
    + congruence.
    + by intros [= <-].
    + by intros _ _ [= <-].
    + apply Hu.
Qed.

Lemma wiring_setResize b lock h r :
  wiring b lock h r ->
  wiring (setTimer ResizeSync 250 false b).2 lock h (Some (nextId b)).
Proof.
  intros [Hf Hh Hr Ht Hl Hu]. split; cbn.
  - exact (setTimer_fresh ResizeSync 250 false b Hf).
  - intros id Hid. destruct (Hh id Hid) as (t & Hlk & Hcb). exists t. split; [|done].
    rewrite lookup_insert_ne; [done|]. apply Hf in Hlk. lia.
  - intros id [= <-]. split; [lia|]. intros t. rewrite lookup_insert_eq. by intros [= <-].
  - intros id t. rewrite lookup_insert. case_decide.
    + intros [= <-]. unfold timerOk. cbn. split; [done|lia].
    + apply Ht.
  - intros Hlock. destruct (Hl Hlock) as (id & t & Hlk & Hcb). exists id, t.
    split; [|done]. rewrite lookup_insert_ne; [done|]. apply Hf in Hlk. lia.
  - intros id1 t1 id2 t2. rewrite !lookup_insert. repeat case_decide.
    + congruence.
    + by intros [= <-].
    + by intros _ _ [= <-].
    + apply Hu.
Qed.

(** Removing a timer that is not an unlock timeout. *)
Lemma wiring_clear b lock h r id :
  wiring b lock h r ->
  (forall t, timers b !! id = Some t -> callback t <> UnlockAnimation) ->
  h <> Some id ->
  wiring (clearTimer id b) lock h r.
Proof.
  intros [Hf Hh Hr Ht Hl Hu] Hid Hne. split; cbn.
  - exact (clearTimer_fresh id b Hf).
  - intros j Hj. destruct (Hh j Hj) as (t & Hlk & Hcb). exists t. split; [|done].
    rewrite lookup_delete_ne; [done|]. congruence.
  - intros j Hj. destruct (Hr j Hj) as [Hlt Hcb]. split; [done|].
    intros t. rewrite lookup_delete. case_decide; [done|]. apply Hcb.
  - intros j t. rewrite lookup_delete. case_decide; [done|]. apply Ht.
  - intros Hlock. destruct (Hl Hlock) as (j & t & Hlk & Hcb). exists j, t.
    split; [|done]. rewrite lookup_delete_ne; [done|].
    intros <-. by apply (Hid t).
  - intros id1 t1 id2 t2. rewrite !lookup_delete. repeat case_decide; try done.
    apply Hu.
Qed.

Lemma wiring_forget b lock h r : wiring b lock h r -> wiring b lock None r.
Proof. intros [Hf Hh Hr Ht Hl Hu]. by split. Qed.

(** The unlock timeout has run and is taken off the table. *)
Lemma wiring_fireUnlock b lock h r id t :
  wiring b lock h r -> timers b !! id = Some t -> callback t = UnlockAnimation ->
  wiring (clearTimer id b) false h r.
Proof.
  intros [Hf Hh Hr Ht Hl Hu] Hlk Hcb. split; cbn.
  - exact (clearTimer_fresh id b Hf).
  - intros j Hj. destruct (Hh j Hj) as (t' & Hlk' & Hcb'). exists t'. split; [|done].
    rewrite lookup_delete_ne; [done|]. intros <-. congruence.
  - intros j Hj. destruct (Hr j Hj) as [Hlt Hcb']. split; [done|].
    intros t'. rewrite lookup_delete. case_decide; [done|]. apply Hcb'.
  - intros j t'. rewrite lookup_delete. case_decide as Hj; [done|]. intros Hlk'.
    apply (timerOk_lock _ lock); [|by eapply Ht].
    intros Hcb'. apply Hj. by eapply Hu.
  - done.
  - intros id1 t1 id2 t2. rewrite !lookup_delete. repeat case_decide; try done.
    apply Hu.
Qed.

(** The event loop settling a timer other than an unlock timeout. *)
Lemma wiring_settle b lock h r id :
  wiring b lock h r ->
  (forall t, timers b !! id = Some t -> callback t <> UnlockAnimation) ->
  wiring (settle id b) lock h r.
Proof.
  intros Hw Hid. unfold settle.
  destruct (timers b !! id) as [t|] eqn:Hlk; [|done].
  pose proof (wi_timers _ _ _ _ Hw id t Hlk) as Hok. unfold timerOk in Hok.
  destruct (callback t) eqn:Hcb; [by specialize (Hid t eq_refl)| |].
  - destruct Hok as [-> _]. destruct Hw as [Hf Hh Hr Ht Hl Hu]. split; cbn.
    + intros j t'. cbn. rewrite lookup_insert. case_decide; [|apply Hf].
      intros _. subst j. by apply Hf in Hlk.
    + intros j Hj. destruct (Hh j Hj) as (t' & Hlk' & Hcb').
      rewrite lookup_insert. case_decide; eauto.
    + intros j Hj. destruct (Hr j Hj) as [Hlt Hcb']. split; [done|].
      intros t'. rewrite lookup_insert. case_decide; [|apply Hcb'].
      subst j. specialize (Hcb' t Hlk). congruence.
    + intros j t'. rewrite lookup_insert. case_decide; [|apply Ht].
      intros [= <-]. unfold timerOk. cbn. split; [done|lia].
    + intros Hlock. destruct (Hl Hlock) as (j & t' & Hlk' & Hcb'). exists j, t'.
      split; [|done]. rewrite lookup_insert_ne; [done|]. intros <-. congruence.
    + intros id1 t1 id2 t2. rewrite !lookup_insert. repeat case_decide.
      * congruence.
      * intros [= <-]. cbn. congruence.
      * intros _ _ [= <-]. cbn. congruence.
      * apply Hu.
  - destruct Hok as [-> _]. apply wiring_clear; [done| |].
    { intros t0 Ht0. rewrite Hlk in Ht0. injection Ht0 as <-. congruence. }
    intros Hh. destruct (wi_handle _ _ _ _ Hw id Hh) as (t' & Hlk' & Hcb'). congruence.
Qed.

Lemma wiring_advance b lock h r dt :
  0 <= dt -> wiring b lock h r -> wiring (advance dt b) lock h r.
Proof.
  intros Hdt [Hf Hh Hr Ht Hl Hu]. split; cbn; try done.
  intros id t Hlk. apply timerOk_later; [done|]. by eapply Ht.
Qed.

Lemma olderKept_refl b : olderKept b b.
Proof. split; [lia|done]. Qed.

Lemma olderKept_trans b1 b2 b3 : olderKept b1 b2 -> olderKept b2 b3 -> olderKept b1 b3.
Proof.
  intros [Hn12 H12] [Hn23 H23]. split; [lia|].
  intros id t Ht Hid. apply H12; [|done]. apply H23; [done|lia].
Qed.

Lemma setTimer_olderKept cb d r b : olderKept b (setTimer cb d r b).2.
Proof.
  split; cbn; [lia|]. intros id t Ht Hid. by rewrite lookup_insert_ne in Ht by lia.
Qed.

Lemma clearTimer_olderKept id b : olderKept b (clearTimer id b).
Proof.
  split; cbn; [lia|]. intros j t. rewrite lookup_delete. by case_decide.
Qed.

Lemma updateCarousel_olderKept index animate w :
  olderKept (browser w) (browser (updateCarousel index animate w)).
Proof.
  rewrite updateCarousel_browser. destruct (negb _ && animate).
  - apply setTimer_olderKept.
  - apply olderKept_refl.
Qed.

Lemma resetAutoplay_olderKept w : olderKept (browser w) (browser (resetAutoplay w)).
Proof.
  unfold resetAutoplay. eapply olderKept_trans; [|apply setTimer_olderKept].
  unfold stopAutoplay. destruct (autoplayInterval (carousel w)).
  - apply clearTimer_olderKept.
  - apply olderKept_refl.
Qed.

Lemma goToSlide_olderKept index w : olderKept (browser w) (browser (goToSlide index w)).
Proof.
  eapply olderKept_trans; [apply updateCarousel_olderKept|apply resetAutoplay_olderKept].
Qed.

Lemma autoplayTick_olderKept w : olderKept (browser w) (browser (autoplayTick w)).
Proof.
  unfold autoplayTick, next. repeat case_match.
  - apply (goToSlide_olderKept (currentIndex (carousel w) + 1) w).
  - apply updateCarousel_olderKept.
Qed.

Lemma wired_update r w index animate :
  wired (r, w) -> (animate = false -> isAnimating (carousel w) = false) ->
  wired (r, updateCarousel index animate w).
Proof.
  intros [Hw Hd] Hna. cbn [fst snd] in *.
  split; cbn [fst snd]; [|by rewrite updateCarousel_delay].
  rewrite updateCarousel_browser, updateCarousel_handle.
  destruct (isAnimating (carousel w)) eqn:Hl, animate; cbn [negb andb].
  - rewrite (updateCarousel_locked _ _ Hl). cbn [record_call carousel].
    by rewrite Hl.
  - by specialize (Hna eq_refl).
  - rewrite updateCarousel_lock by (by rewrite Hl). by apply wiring_setUnlock.
  - rewrite updateCarousel_lock by (by rewrite Hl). done.
Qed.

Lemma wired_start r w : wired (r, w) -> wired (r, startAutoplay w).
Proof.
  intros [Hw Hd]. cbn [fst snd] in *. split; [|done].
  unfold startAutoplay, setInterval. rewrite Hd.
  exact (wiring_setAutoplay _ _ _ _ Hw).
Qed.

Lemma wired_stop r w : wired (r, w) -> wired (r, stopAutoplay w).
Proof.
  intros H. unfold stopAutoplay.
  destruct (autoplayInterval (carousel w)) as [id|] eqn:Hh; [|exact H].
  destruct H as [Hw Hd]. cbn [fst snd] in *.
  split; [|done]. cbn.
  destruct (wi_handle _ _ _ _ Hw id Hh) as (t & Hlk & Hcb).
  apply wiring_clear; [by eapply wiring_forget| |done].
  intros t' Hlk'. congruence.
Qed.

Lemma wired_goToSlide r w index : wired (r, w) -> wired (r, goToSlide index w).
Proof.
  intros H. unfold goToSlide, resetAutoplay.
  by apply wired_start, wired_stop, wired_update.
Qed.

Lemma wired_next r w : wired (r, w) -> wired (r, next w).
Proof. intros H. unfold next. case_match; [by apply wired_goToSlide|done]. Qed.

Lemma wired_prev r w : wired (r, w) -> wired (r, prev w).
Proof. intros H. unfold prev. case_match; [by apply wired_goToSlide|done]. Qed.

Lemma wired_tick r w : wired (r, w) -> wired (r, autoplayTick w).
Proof.
  intros H. unfold autoplayTick. case_match; [by apply wired_next|].
  by apply wired_update.
Qed.

Lemma wired_resize r w : wired (r, w) -> wired (resizeOp r w).
Proof.
  intros [Hw Hd]. cbn [fst snd] in *. split; [|done]. unfold resizeOp. cbn [fst snd].
  destruct r as [id|]; cbn.
  - assert (Hc : wiring (clearTimer id (browser w)) (isAnimating (carousel w))
                        (autoplayInterval (carousel w)) (Some id)).
    { destruct (wi_resize _ _ _ _ Hw id eq_refl) as [_ Hcb].
      apply wiring_clear; [done| |].
      - intros t Ht. rewrite (Hcb t Ht). done.
      - intros Hh. destruct (wi_handle _ _ _ _ Hw id Hh) as (t & Hlk & Hcb').
        rewrite (Hcb t Hlk) in Hcb'. done. }
    exact (wiring_setResize _ _ _ _ Hc).
  - exact (wiring_setResize _ _ _ _ Hw).
Qed.

Lemma wired_fire r w id t :
  wired (r, w) -> timers (browser w) !! id = Some t ->
  wired (r, set_browser (settle id (browser (handler (callback t) w)))
                        (handler (callback t) w)).
Proof.
  intros H Hlk. destruct (callback t) eqn:Hcb; cbn [handler].
  - destruct H as [Hw Hd]. cbn [fst snd] in *. split; [|done]. cbn.
    pose proof (wi_timers _ _ _ _ Hw id t Hlk) as Hok. unfold timerOk in Hok.
    rewrite Hcb in Hok. destruct Hok as (Hper & _).
    unfold settle. rewrite Hlk, Hper.
    by eapply wiring_fireUnlock.
  - pose proof (wired_tick r w H) as [Hw' Hd']. cbn [fst snd] in *.
    split; [|done]. cbn.
    apply wiring_settle; [done|].
    intros t' Hlk'. destruct (autoplayTick_olderKept w) as [_ Hold].
    destruct H as [Hw _]. cbn [fst snd] in Hw.
    rewrite (Hold id t' Hlk') in Hlk by (by eapply (wi_fresh _ _ _ _ Hw)).
    injection Hlk as ->. by rewrite Hcb.
  - destruct H as [Hw Hd]. cbn [fst snd] in *. split; [|done]. cbn.
    apply wiring_settle; [done|]. intros t' Hlk'. congruence.
Qed.

Lemma wired_move e s s' : wired s -> move e s s' -> wired s'.
Proof.
  intros H Hm. destruct Hm.
  - done.
  - by apply wired_next.
  - by apply wired_prev.
  - by apply wired_goToSlide.
  - by apply wired_stop.
  - by apply wired_start.
  - by apply wired_resize.
  - destruct H as [Hw Hd]. split; [|done]. cbn. by apply wiring_advance.
  - by apply wired_fire.
Qed.

Lemma wired_initial mk : wired (None, initialWorld mk).
Proof.
  unfold initialWorld, init. apply wired_start, wired_update; [|done].
  split; [|done]. cbn. split; cbn; try done.
Qed.

Lemma wired_reachable mk p :
  reachable (Some mk) p ->
  exists k, container p = Some k /\ carouselInstance k = None /\
            wired (resizeTimer p, worldOf p k).
Proof.
  apply reachable_invariant; [apply wired_initial|].
  intros e s s'. apply wired_move.
Qed.

(** X2: whenever [autoplayInterval] holds a handle, that handle names a live
    timer: an autoplay interval of period 5000 ms, due at most 5000 ms from
    now.  The handle never dangles, so [stopAutoplay] always has an interval
    to clear. *)
Theorem handle_is_live (mk : Markup) (p : Page) (k : Container) (h : positive) :
  reachable (Some mk) p -> container p = Some k ->
  autoplayInterval (instance k) = Some h ->
  exists t, timers (page_browser p) !! h = Some t /\
            callback t = AutoplayTick /\ period t = Some 5000 /\
            due t <= now (page_browser p) + 5000.
Proof.
  intros Hp Hk Hh.
  destruct (wired_reachable mk p Hp) as (k' & Hk' & _ & Hw & _).
  rewrite Hk in Hk'. injection Hk' as <-. cbn [fst snd] in Hw.
  destruct (wi_handle _ _ _ _ Hw h Hh) as (t & Hlk & Hcb).
  exists t. split; [exact Hlk|]. split; [exact Hcb|].
  pose proof (wi_timers _ _ _ _ Hw h t Hlk) as Hok.
  unfold timerOk in Hok. rewrite Hcb in Hok. exact Hok.
Qed.

(** X2, witness: the demo page after a hover, a click on "next" and 1200
    ms. *)
Lemma handle_is_live_witness :
  exists t, timers (page_browser (after [MouseEnter; ClickNext; Elapse 1200]))
              !! 3%positive = Some t /\
            callback t = AutoplayTick.
Proof.
  set (es := [MouseEnter; ClickNext; Elapse 1200]).
  assert (Hp : reachable (Some demoMarkup) (after es)).
  { apply (run_reachable _ _ es _ (reach_load _)). vm_compute. reflexivity. }
  assert (Hk : exists k, container (after es) = Some k /\
                         autoplayInterval (instance k) = Some 3%positive).
  { eexists. split; [vm_compute; reflexivity|reflexivity]. }
  destruct Hk as (k & Hk & Hh).
  destruct (handle_is_live demoMarkup (after es) k 3%positive Hp Hk Hh)
    as (t & Hlk & Hcb & _).
  exists t. split; [exact Hlk|exact Hcb].
Defined.

(** X3: the animation lock is set exactly while an unlock timeout is
    pending.  There is never more than one such timeout, it is a one-shot
    timer, and it is due at most 500 ms from now: a set lock always has
    its release scheduled, and a clear lock has none left over. *)
Theorem lock_has_unlock_timeout (mk : Markup) (p : Page) (k : Container) :
  reachable (Some mk) p -> container p = Some k ->
  (isAnimating (instance k) = true <->
   exists id t, timers (page_browser p) !! id = Some t /\
                callback t = UnlockAnimation) /\
  (forall id t, timers (page_browser p) !! id = Some t ->
                callback t = UnlockAnimation ->
                period t = None /\ due t <= now (page_browser p) + 500) /\
  (forall id1 t1 id2 t2,
     timers (page_browser p) !! id1 = Some t1 -> callback t1 = UnlockAnimation ->
     timers (page_browser p) !! id2 = Some t2 -> callback t2 = UnlockAnimation ->
     id1 = id2).
Proof.
  intros Hp Hk.
  destruct (wired_reachable mk p Hp) as (k' & Hk' & _ & Hw & _).
  rewrite Hk in Hk'. injection Hk' as <-. cbn [fst snd] in Hw.
  split; [split|split].
  - apply (wi_locked _ _ _ _ Hw).
  - intros (id & t & Hlk & Hcb).
    pose proof (wi_timers _ _ _ _ Hw id t Hlk) as Hok.
    unfold timerOk in Hok. rewrite Hcb in Hok. tauto.
  - intros id t Hlk Hcb.
    pose proof (wi_timers _ _ _ _ Hw id t Hlk) as Hok.
    unfold timerOk in Hok. rewrite Hcb in Hok. tauto.
  - apply (wi_unique _ _ _ _ Hw).
Qed.

(** X3, witness: on the demo page, 200 ms after a click on "next", the lock
    is set and timeout 2 is the pending unlock. *)
Lemma lock_has_unlock_timeout_witness :
  exists k, container (after [ClickNext; Elapse 200]) = Some k /\
            isAnimating (instance k) = true /\
            forall id t,
              timers (page_browser (after [ClickNext; Elapse 200])) !! id = Some t ->
              callback t = UnlockAnimation -> id = 2%positive.
Proof.
  set (es := [ClickNext; Elapse 200]).
  assert (Hp : reachable (Some demoMarkup) (after es)).
  { apply (run_reachable _ _ es _ (reach_load _)). vm_compute. reflexivity. }
  assert (Hk : exists k, container (after es) = Some k).
  { eexists. vm_compute. reflexivity. }
  destruct Hk as (k & Hk).
  destruct (lock_has_unlock_timeout demoMarkup (after es) k Hp Hk) as (Hiff & _ & Huniq).
  exists k. split; [exact Hk|]. split.
  - apply Hiff. exists 2%positive. eexists. split; [vm_compute; reflexivity|reflexivity].
  - intros id t Hlk Hcb.
    refine (Huniq id t 2%positive
              {| due := 500; period := None; callback := UnlockAnimation |}
              Hlk Hcb _ eq_refl).
    vm_compute. reflexivity.
Defined.

Lemma autoplayTick_locked w :
  isAnimating (carousel w) = true ->
  isAnimating (carousel (autoplayTick w)) = true.
Proof.
  intros Hl. unfold autoplayTick. case_match.
  - destruct (next_locked w Hl) as (_ & _ & _ & -> & _). exact Hl.
  - by rewrite updateCarousel_locked.
Qed.

(** X4: once set, the lock is cleared by nothing but its unlock timeout:
    if a step of a session takes the page from locked to unlocked, that
    step is the firing of a pending [UnlockAnimation] timeout that has
    come due, and the timeout is gone afterwards.  No click, key, swipe,
    hover, resize or autoplay tick releases the lock. *)
Theorem lock_released_by_timeout
    (mk : Markup) (p p' : Page) (e : Event) (k k' : Container) :
  reachable (Some mk) p -> step p e = Some p' ->
  container p = Some k -> container p' = Some k' ->
  isAnimating (instance k) = true -> isAnimating (instance k') = false ->
  exists id t,
    e = Fire id /\ timers (page_browser p) !! id = Some t /\
    callback t = UnlockAnimation /\ due t <= now (page_browser p) /\
    timers (page_browser p') !! id = None.
Proof.
  intros Hp Hs Hk Hk' Hl Hl'.
  destruct (wired_reachable mk p Hp) as (k0 & Hk0 & Hn & Hw & _).
  rewrite Hk in Hk0. injection Hk0 as <-. cbn [fst snd] in Hw.
  destruct (step_move _ _ _ _ Hk Hn Hs) as (k1 & Hk1 & _ & Hm).
  rewrite Hk' in Hk1. injection Hk1 as <-.
  change (isAnimating (carousel (worldOf p k)) = true) in Hl.
  change (isAnimating (carousel (worldOf p' k')) = false) in Hl'.
  change (page_browser p') with (browser (worldOf p' k')).
  change (page_browser p) with (browser (worldOf p k)) in *.
  set (w := worldOf p k) in *. set (w' := worldOf p' k') in *.
  clearbody w w'. clear Hp Hs Hk Hk' Hn.
  inversion Hm; subst.
  1-8: exfalso.
  - congruence.
  - destruct (next_locked w Hl) as (_ & _ & _ & E & _). congruence.
  - destruct (prev_locked w Hl) as (_ & _ & _ & E & _). congruence.
  - destruct (goToSlide_locked (Z.of_nat i) w Hl) as (_ & _ & _ & E & _). congruence.
  - destruct (stopAutoplay_same w) as (_ & _ & _ & E & _). congruence.
  - destruct (startAutoplay_same w) as (_ & _ & _ & E & _). congruence.
  - cbn in Hl'. congruence.
  - cbn in Hl'. congruence.
  - match goal with H : timers (browser w) !! _ = Some _ |- _ => rename H into Hlk end.
    destruct (callback t) eqn:Hcb; cbn [handler] in *.
    + exists id, t. split; [done|].
      pose proof (wi_timers _ _ _ _ Hw id t Hlk) as Hok.
      unfold timerOk in Hok. rewrite Hcb in Hok. destruct Hok as (Hper & _).
      repeat split; try done. cbn. unfold settle. rewrite Hlk, Hper. cbn.
      apply lookup_delete_eq.
    + exfalso. cbn in Hl'. rewrite autoplayTick_locked in Hl' by done. done.
    + exfalso. cbn in Hl'. congruence.
Qed.

(** X4, witness: on the demo page the lock taken by a click on "next" is
    released when timeout 2 fires 500 ms later. *)
Lemma lock_released_by_timeout_witness :
  exists id t,
    Fire 2%positive = Fire id /\
    timers (page_browser (after [ClickNext; Elapse 500])) !! id = Some t /\
    callback t = UnlockAnimation.
Proof.
  set (es := [ClickNext; Elapse 500]).
  assert (Hp : reachable (Some demoMarkup) (after es)).
  { apply (run_reachable _ _ es _ (reach_load _)). vm_compute. reflexivity. }
  assert (Hs : step (after es) (Fire 2%positive) = Some (after (es ++ [Fire 2%positive])))
    by (vm_compute; reflexivity).
  assert (Hk : exists k, container (after es) = Some k /\
                         isAnimating (instance k) = true).
  { eexists. split; [vm_compute; reflexivity|reflexivity]. }
  assert (Hk' : exists k, container (after (es ++ [Fire 2%positive])) = Some k /\
                          isAnimating (instance k) = false).
  { eexists. split; [vm_compute; reflexivity|reflexivity]. }
  destruct Hk as (k & Hk & Hl). destruct Hk' as (k' & Hk' & Hl').
  destruct (lock_released_by_timeout demoMarkup _ _ _ k k' Hp Hs Hk Hk' Hl Hl')
    as (id & t & He & Hlk & Hcb & _).
  exists id, t. split; [exact He|]. split; [exact Hlk|exact Hcb].
Defined.

(* ===================================================================== *)
(** ** How many autoplay intervals *)
(* ===================================================================== *)

Lemma settle_callback id b j t :
  timers (settle id b) !! j = Some t ->
  exists t0, timers b !! j = Some t0 /\ callback t0 = callback t.
Proof.
  unfold settle. destruct (timers b !! id) as [t0|] eqn:E; [|by eauto].
  destruct (period t0); cbn.
  - rewrite lookup_insert. case_decide as Hj; [|by eauto].
    subst j. intros [= <-]. eauto.
  - rewrite lookup_delete. case_decide; [done|by eauto].
Qed.

Lemma single_update r w index animate :
  singleInterval (r, w) -> singleInterval (r, updateCarousel index animate w).
Proof.
  intros H id t. cbn [fst snd]. rewrite updateCarousel_browser, updateCarousel_handle.
  destruct (negb _ && animate); [|apply H].
  cbn. rewrite lookup_insert. case_decide; [by intros [= <-]|apply H].
Qed.

Lemma single_stop r w :
  singleInterval (r, w) ->
  singleInterval (r, stopAutoplay w) /\ autoplayInterval (carousel (stopAutoplay w)) = None.
Proof.
  intros H. unfold stopAutoplay.
  destruct (autoplayInterval (carousel w)) as [h|] eqn:Hh; [|done].
  split; [|done]. intros id t. cbn. rewrite lookup_delete. case_decide as Hid; [done|].
  intros Hlk Hcb. specialize (H id t Hlk Hcb). cbn in H. congruence.
Qed.

Lemma single_start r w :
  autoplayInterval (carousel w) = None ->
  singleInterval (r, w) -> singleInterval (r, startAutoplay w).
Proof.
  intros Hnone H id t. cbn. rewrite lookup_insert. case_decide as Hid; [by subst|].
  intros Hlk Hcb. specialize (H id t Hlk Hcb). cbn in H. congruence.
Qed.

Lemma single_goToSlide r w index :
  singleInterval (r, w) -> singleInterval (r, goToSlide index w).
Proof.
  intros H. unfold goToSlide, resetAutoplay.
  destruct (single_stop r _ (single_update r w index true H)) as [Hs Hn].
  by apply single_start.
Qed.

Lemma single_tick r w : singleInterval (r, w) -> singleInterval (r, autoplayTick w).
Proof.
  intros H. unfold autoplayTick, next. repeat case_match.
  - by apply single_goToSlide.
  - by apply single_update.
Qed.

Lemma single_move e s s' :
  singleInterval s -> leavesStopped e s -> move e s s' -> singleInterval s'.
Proof.
  intros H HG Hm. destruct Hm.
  - done.
  - unfold next. case_match; [by apply single_goToSlide|done].
  - unfold prev. case_match; [by apply single_goToSlide|done].
  - by apply single_goToSlide.
  - by apply single_stop.
  - apply single_start; [|done]. by apply HG.
  - intros id t. unfold resizeOp. cbn. rewrite lookup_insert.
    case_decide; [by intros [= <-]|].
    destruct r as [old|]; cbn; [|apply H].
    rewrite lookup_delete. case_decide; [done|apply H].
  - exact H.
  - intros j t' Hlk Hcb. cbn in Hlk.
    destruct (settle_callback _ _ _ _ Hlk) as (t0 & Hlk0 & Hcb0).
    assert (Hh : singleInterval (r, handler (callback t) w)).
    { destruct (callback t); cbn [handler]; [exact H|by apply single_tick|exact H]. }
    apply (Hh j t0 Hlk0). congruence.
Qed.

(** X5: as long as the pointer leaves the container only while autoplay is
    stopped (every [mouseleave] finds [autoplayInterval] null), every live
    autoplay interval is the one held in the handle, so at most one is
    live.  Clicks, keys, swipes, resizes, hover-in and timers of any kind
    never add a second one. *)
Theorem one_interval_while_leaves_stopped
    (mk : Markup) (p : Page) (k : Container) (id : positive) (t : Timer) :
  guarded leavesStopped mk p -> container p = Some k ->
  timers (page_browser p) !! id = Some t -> callback t = AutoplayTick ->
  autoplayInterval (instance k) = Some id.
Proof.
  intros Hp Hk Hlk Hcb.
  destruct (guarded_invariant leavesStopped singleInterval mk) with (p := p)
    as (k' & Hk' & _ & Hs); [| |exact Hp|].
  - intros j t'. unfold initialWorld, init.
    assert (H0 : singleInterval (None, {| browser := initialBrowser;
                                          carousel := newCarousel mk;
                                          calls := [] |})).
    { intros i ti Hi. by rewrite initialBrowser_empty in Hi. }
    apply (single_start None); [by rewrite updateCarousel_handle|].
    by apply single_update.
  - intros e s s'. apply single_move.
  - rewrite Hk in Hk'. injection Hk' as <-. exact (Hs id t Hlk Hcb).
Qed.

(** X5, witness: hover in, hover out, click "next" on the demo page; the
    one live interval is handle 4. *)
Lemma one_interval_while_leaves_stopped_witness :
  exists k, container (after [MouseEnter; MouseLeave; ClickNext]) = Some k /\
            autoplayInterval (instance k) = Some 4%positive.
Proof.
  assert (H1 : guarded leavesStopped demoMarkup (after [MouseEnter])).
  { eapply (g_step _ _ (load (Some demoMarkup)) MouseEnter);
      [apply g_load | reflexivity | intros E; discriminate E | vm_compute; reflexivity]. }
  assert (H2 : guarded leavesStopped demoMarkup (after [MouseEnter; MouseLeave])).
  { eapply (g_step _ _ (after [MouseEnter]) MouseLeave);
      [exact H1 | vm_compute; reflexivity | intros _; reflexivity
      | vm_compute; reflexivity]. }
  assert (H3 : guarded leavesStopped demoMarkup (after [MouseEnter; MouseLeave; ClickNext])).
  { eapply (g_step _ _ (after [MouseEnter; MouseLeave]) ClickNext);
      [exact H2 | vm_compute; reflexivity | intros E; discriminate E
      | vm_compute; reflexivity]. }
  assert (Hk : exists k, container (after [MouseEnter; MouseLeave; ClickNext]) = Some k).
  { eexists. vm_compute. reflexivity. }
  destruct Hk as (k & Hk). exists k. split; [exact Hk|].
  apply (one_interval_while_leaves_stopped demoMarkup _ k 4%positive
           (autoplayTimer 0) H3 Hk); [vm_compute; reflexivity|reflexivity].
Defined.

(* ===================================================================== *)
(** ** Starting, stopping and resetting autoplay *)
(* ===================================================================== *)

(** X6: on a carousel whose autoplay is stopped, [startAutoplay] followed
    by [stopAutoplay] leaves no trace: the instance, the clock and the
    timer table are what they were (a handle number has been used up,
    nothing else).  The precondition is that timer handles in use lie
    below the next handle to be issued, which holds in every session. *)
Theorem start_stop_roundtrip (w : World) :
  freshTimers (browser w) -> autoplayInterval (carousel w) = None ->
  carousel (stopAutoplay (startAutoplay w)) = carousel w /\
  timers (browser (stopAutoplay (startAutoplay w))) = timers (browser w) /\
  now (browser (stopAutoplay (startAutoplay w))) = now (browser w) /\
  calls (stopAutoplay (startAutoplay w)) = calls w.
Proof.
  intros Hf Hnone. unfold stopAutoplay, startAutoplay. cbn.
  split; [|split; [|done]].
  - destruct w as [b c l]. destruct c. cbn in *. by rewrite Hnone.
  - apply delete_insert_id.
    destruct (timers (browser w) !! nextId (browser w)) as [t|] eqn:E; [|done].
    apply Hf in E. lia.
Qed.

(** X6, witness: the demo carousel with autoplay stopped. *)
Lemma start_stop_roundtrip_witness :
  carousel (stopAutoplay (startAutoplay (stopAutoplay demoWorld))) =
  carousel (stopAutoplay demoWorld) /\
  timers (browser (stopAutoplay (startAutoplay (stopAutoplay demoWorld)))) =
  timers (browser (stopAutoplay demoWorld)).
Proof.
  assert (Hf : freshTimers (browser (stopAutoplay demoWorld))).
  { intros id t. vm_compute. intros H. discriminate H. }
  destruct (start_stop_roundtrip (stopAutoplay demoWorld) Hf eq_refl) as (Hc & Ht & _).
  split; [exact Hc|exact Ht].
Defined.

(** X7: every [goToSlide] resets autoplay, whatever the index and whether
    or not the move itself is dropped by the animation lock: afterwards
    the handle is a newly issued interval that was not pending before and
    is due a full 5000 ms from now, and the interval the handle held
    before is no longer pending.  [next()] and [prev()] are [goToSlide] of
    the neighbouring index whenever their guard passes. *)
Theorem navigation_resets_autoplay
    (mk : Markup) (p : Page) (k : Container) (index : Z) :
  reachable (Some mk) p -> container p = Some k ->
  let w := worldOf p k in
  (exists new,
     autoplayInterval (carousel (goToSlide index w)) = Some new /\
     timers (browser w) !! new = None /\
     timers (browser (goToSlide index w)) !! new =
       Some (autoplayTimer (now (browser w))) /\
     forall old, autoplayInterval (carousel w) = Some old ->
                 timers (browser (goToSlide index w)) !! old = None) /\
  (currentIndex (carousel w) < lastIndex (carousel w) ->
   next w = goToSlide (currentIndex (carousel w) + 1) w) /\
  (currentIndex (carousel w) > 0 ->
   prev w = goToSlide (currentIndex (carousel w) - 1) w).
Proof.
  intros Hp Hk w.
  destruct (fresh_reachable mk p Hp) as (k0 & Hk0 & _ & Hfresh).
  rewrite Hk in Hk0. injection Hk0 as <-. fold w in Hfresh.
  split; [|split].
  - set (w1 := updateCarousel index true w).
    pose proof (updateCarousel_fresh index true w Hfresh) as (Ht1 & Hh1 & Hd1).
    fold w1 in Ht1, Hh1, Hd1.
    destruct (resetAutoplay_effect w1) as (Hnew & Hnow & Htim).
    pose proof (updateCarousel_nextId index true w) as Hle. fold w1 in Hle.
    destruct Hfresh as (Ht0 & Hh0 & Hd0).
    exists (nextId (browser w1)). unfold goToSlide. fold w1.
    split; [exact Hnew|]. split.
    { destruct (timers (browser w) !! nextId (browser w1)) as [t'|] eqn:E; [|done].
      apply Ht0 in E. lia. }
    split.
    { rewrite Htim, lookup_insert_eq. unfold autoplayTimer. rewrite Hd1.
      subst w1. by rewrite updateCarousel_now. }
    intros old Hold.
    assert (Hold1 : autoplayInterval (carousel w1) = Some old).
    { subst w1. by rewrite updateCarousel_handle. }
    rewrite Htim, Hold1. apply Hh1 in Hold1.
    rewrite lookup_insert_ne by lia. apply lookup_delete_eq.
  - intros Hlt. unfold next. by rewrite (proj2 (Z.ltb_lt _ _) Hlt).
  - intros Hgt. unfold prev. by rewrite (proj2 (Z.gtb_gt _ _) Hgt).
Qed.

(** X7, witness: on the demo page a click on the second indicator 100 ms
    after a click on "next" is dropped by the lock, yet the handle moves
    from interval 3 to interval 4. *)
Lemma navigation_resets_autoplay_witness :
  exists k, container (after [ClickNext; Elapse 100]) = Some k /\
            autoplayInterval (instance k) = Some 3%positive /\
            timers (browser (goToSlide 1 (worldOf (after [ClickNext; Elapse 100]) k)))
              !! 3%positive = None.
Proof.
  set (es := [ClickNext; Elapse 100]).
  assert (Hp : reachable (Some demoMarkup) (after es)).
  { apply (run_reachable _ _ es _ (reach_load _)). vm_compute. reflexivity. }
  assert (Hk : exists k, container (after es) = Some k /\
                         autoplayInterval (instance k) = Some 3%positive).
  { eexists. split; [vm_compute; reflexivity|reflexivity]. }
  destruct Hk as (k & Hk & Hh). exists k. split; [exact Hk|]. split; [exact Hh|].
  destruct (navigation_resets_autoplay demoMarkup (after es) k 1 Hp Hk)
    as ((new & _ & _ & _ & Hold) & _).
  exact (Hold 3%positive Hh).
Defined.

(** X8: the tick that finds the carousel on (or past) its last slide takes
    the other branch of the handler: it does not touch autoplay.  The
    handle is unchanged and every timer that was pending is still pending
    unchanged; under the animation lock the tick changes nothing at all,
    so the carousel sits on the last slide until a later tick. *)
Theorem wrap_tick_keeps_timer (w : World) :
  freshTimers (browser w) ->
  lastIndex (carousel w) <= currentIndex (carousel w) ->
  autoplayInterval (carousel (autoplayTick w)) = autoplayInterval (carousel w) /\
  (forall id t, timers (browser w) !! id = Some t ->
                timers (browser (autoplayTick w)) !! id = Some t) /\
  (isAnimating (carousel w) = true ->
   carousel (autoplayTick w) = carousel w /\ browser (autoplayTick w) = browser w) /\
  (isAnimating (carousel w) = false ->
   currentIndex (carousel (autoplayTick w)) = 0 /\
   isAnimating (carousel (autoplayTick w)) = true).
Proof.
  intros Hf Hlast. unfold autoplayTick.
  rewrite (proj2 (Z.ltb_ge _ _) Hlast).
  split; [apply updateCarousel_handle|]. split; [|split].
  - intros id t Hlk. rewrite updateCarousel_browser.
    destruct (negb _ && true); [|done]. cbn.
    rewrite lookup_insert_ne; [done|]. apply Hf in Hlk. lia.
  - intros Hl. by rewrite updateCarousel_locked.
  - intros Hl. split.
    + apply updateCarousel_index. by rewrite Hl.
    + apply updateCarousel_animated_locks.
Qed.

(** X8, witness: the demo carousel on its last slide. *)
Lemma wrap_tick_keeps_timer_witness :
  autoplayInterval (carousel (autoplayTick demoWorldLast)) = Some 1%positive /\
  currentIndex (carousel (autoplayTick demoWorldLast)) = 0.
Proof.
  assert (Hf : freshTimers (browser demoWorldLast)).
  { intros id t Hlk.
    assert (Hid : id = 1%positive).
    { destruct (decide (id = 1%positive)) as [|Hne]; [done|].
      change (timers (browser demoWorldLast)) with
        (<[1%positive := autoplayTimer 0]> (∅ : gmap positive Timer)) in Hlk.
      rewrite lookup_insert_ne in Hlk by done. by rewrite lookup_empty in Hlk. }
    subst id. reflexivity. }
  assert (Hlast : lastIndex (carousel demoWorldLast) <= currentIndex (carousel demoWorldLast)).
  { vm_compute. discriminate. }
  destruct (wrap_tick_keeps_timer demoWorldLast Hf Hlast) as (Hh & _ & _ & Hw).
  split; [rewrite Hh; reflexivity|]. exact (proj1 (Hw eq_refl)).
Defined.

(* ===================================================================== *)
(** ** Autoplay goes round; next and previous undo each other *)
(* ===================================================================== *)

Lemma tickCycle_step w :
  isAnimating (carousel w) = false -> indexInRange (carousel w) ->
  isAnimating (carousel (tickCycle w)) = false /\
  slides_length (carousel (tickCycle w)) = slides_length (carousel w) /\
  currentIndex (carousel (tickCycle w)) =
    (currentIndex (carousel w) + 1) mod Z.of_nat (slides_length (carousel w)).
Proof.
  intros Hl [Hlo Hhi]. unfold tickCycle, unlockAnimation. cbn.
  split; [done|]. unfold autoplayTick, next, lastIndex.
  destruct (Z.ltb_spec (currentIndex (carousel w))
                       (Z.of_nat (slides_length (carousel w)) - 1)) as [Hlt|Hge].
  - destruct (resetAutoplay_same
                (updateCarousel (currentIndex (carousel w) + 1) true w))
      as (_ & -> & -> & _).
    rewrite updateCarousel_slides, updateCarousel_index by (by rewrite Hl).
    split; [done|]. rewrite Z.mod_small; lia.
  - rewrite updateCarousel_slides, updateCarousel_index by (by rewrite Hl).
    split; [done|].
    replace (currentIndex (carousel w) + 1) with (Z.of_nat (slides_length (carousel w)))
      by lia.
    by rewrite Z_mod_same_full.
Qed.

Lemma tickCycle_iter n w :
  isAnimating (carousel w) = false -> indexInRange (carousel w) ->
  isAnimating (carousel (Nat.iter n tickCycle w)) = false /\
  slides_length (carousel (Nat.iter n tickCycle w)) = slides_length (carousel w) /\
  currentIndex (carousel (Nat.iter n tickCycle w)) =
    (currentIndex (carousel w) + Z.of_nat n) mod Z.of_nat (slides_length (carousel w)).
Proof.
  intros Hl Hr. induction n as [|n (IHl & IHs & IHi)].
  - cbn. split; [done|]. split; [done|]. destruct Hr. rewrite Z.add_0_r, Z.mod_small; lia.
  - change (Nat.iter (S n) tickCycle w) with (tickCycle (Nat.iter n tickCycle w)).
    assert (Hr' : indexInRange (carousel (Nat.iter n tickCycle w))).
    { unfold indexInRange. rewrite IHs, IHi. apply Z.mod_pos_bound.
      destruct Hr. lia. }
    destruct (tickCycle_step _ IHl Hr') as (Hl1 & Hs1 & Hi1).
    split; [exact Hl1|]. split; [by rewrite Hs1|].
    rewrite Hi1, IHs, IHi, Zplus_mod_idemp_l. f_equal. lia.
Qed.

(** X9: autoplay visits the slides cyclically.  Starting with the lock
    clear and the index in range, after [n] autoplay periods (a tick, then
    the end of its transition) the index is
    [(currentIndex + n) mod slideCount]; after [slideCount] periods the
    carousel is back on the slide it started from. *)
Theorem autoplay_cycles (w : World) (n : nat) :
  isAnimating (carousel w) = false -> indexInRange (carousel w) ->
  currentIndex (carousel (Nat.iter n tickCycle w)) =
    (currentIndex (carousel w) + Z.of_nat n) mod Z.of_nat (slides_length (carousel w)) /\
  currentIndex (carousel (Nat.iter (slides_length (carousel w)) tickCycle w)) =
    currentIndex (carousel w).
Proof.
  intros Hl Hr. split; [by apply tickCycle_iter|].
  destruct (tickCycle_iter (slides_length (carousel w)) w Hl Hr) as (_ & _ & ->).
  destruct Hr.
  rewrite <- (Z.mul_1_l (Z.of_nat (slides_length (carousel w)))) at 1.
  rewrite Z.mod_add by lia. apply Z.mod_small. lia.
Qed.

(** X9, witness: the three-slide demo carousel after four periods. *)
Lemma autoplay_cycles_witness :
  currentIndex (carousel (Nat.iter 4 tickCycle demoWorld)) = 1 /\
  currentIndex (carousel (Nat.iter 3 tickCycle demoWorld)) = 0.
Proof.
  assert (Hr : indexInRange (carousel demoWorld)) by (vm_compute; split; [discriminate|reflexivity]).
  split.
  - exact (proj1 (autoplay_cycles demoWorld 4 eq_refl Hr)).
  - exact (proj2 (autoplay_cycles demoWorld 4 eq_refl Hr)).
Defined.

Lemma goToSlide_unlocked_visual index w :
  isAnimating (carousel w) = false ->
  currentIndex (carousel (goToSlide index w)) = index /\
  slides_length (carousel (goToSlide index w)) = slides_length (carousel w) /\
  dom (carousel (goToSlide index w)) =
    {| track_offset := - index * 100;
       indicators := imap (mark index) (indicators (dom (carousel w)));
       prevButton := {| disabled := index =? 0; aria_disabled := attr (index =? 0) |};
       nextButton := {| disabled := index =? lastIndex (carousel w);
                        aria_disabled := attr (index =? lastIndex (carousel w)) |} |}.
Proof.
  intros Hl. unfold goToSlide.
  destruct (resetAutoplay_same (updateCarousel index true w)) as (-> & -> & -> & _).
  rewrite updateCarousel_index, updateCarousel_slides, updateCarousel_dom
    by (by rewrite Hl). done.
Qed.

(** Going to [j] and, once the transition is over, to [i] shows what the
    carousel showed on [i]. *)
Lemma there_and_back i j w :
  rendered (carousel w) -> isAnimating (carousel w) = false ->
  currentIndex (carousel w) = i ->
  visual (carousel (goToSlide i (unlockAnimation (goToSlide j w)))) = visual (carousel w).
Proof.
  intros Hr Hl Hi.
  destruct (goToSlide_unlocked_visual j w Hl) as (Hj1 & Hs1 & Hd1).
  set (w1 := unlockAnimation (goToSlide j w)).
  assert (Hl1 : isAnimating (carousel w1) = false) by reflexivity.
  destruct (goToSlide_unlocked_visual i w1 Hl1) as (Hi2 & Hs2 & Hd2).
  unfold visual. rewrite Hi2, Hd2, Hi. f_equal.
  change (dom (carousel w1)) with (dom (carousel (goToSlide j w))).
  change (lastIndex (carousel w1)) with (lastIndex (carousel (goToSlide j w))).
  unfold lastIndex at 1 2. rewrite Hs1, Hd1. cbn [indicators].
  rewrite imap_mark_again. unfold rendered in Hr. rewrite Hi in Hr.
  symmetry. exact Hr.
Qed.

(** X10: [next()] and [prev()] undo each other.  On a carousel whose DOM
    is in sync and whose lock is clear, [next()], the end of the
    transition, then [prev()] shows exactly what was shown before (index,
    track offset, indicators, buttons) when there was a next slide; and
    [prev()], the end of the transition, then [next()] does when there was
    a previous one. *)
Theorem next_prev_undo (w : World) :
  rendered (carousel w) -> isAnimating (carousel w) = false ->
  (0 <= currentIndex (carousel w) < lastIndex (carousel w) ->
   visual (carousel (prev (unlockAnimation (next w)))) = visual (carousel w)) /\
  (0 < currentIndex (carousel w) <= lastIndex (carousel w) ->
   visual (carousel (next (unlockAnimation (prev w)))) = visual (carousel w)).
Proof.
  intros Hr Hl. split.
  - intros [Hlo Hhi].
    assert (Hn : next w = goToSlide (currentIndex (carousel w) + 1) w).
    { unfold next. by rewrite (proj2 (Z.ltb_lt _ _) Hhi). }
    rewrite Hn.
    destruct (goToSlide_unlocked_visual (currentIndex (carousel w) + 1) w Hl)
      as (Hi1 & _).
    unfold prev. cbn [unlockAnimation carousel set_carousel set_isAnimating currentIndex].
    rewrite Hi1.
    destruct (Z.gtb_spec (currentIndex (carousel w) + 1) 0); [|lia].
    replace (currentIndex (carousel w) + 1 - 1) with (currentIndex (carousel w)) by lia.
    by apply (there_and_back (currentIndex (carousel w))).
  - intros [Hlo Hhi].
    assert (Hp : prev w = goToSlide (currentIndex (carousel w) - 1) w).
    { unfold prev. by rewrite (proj2 (Z.gtb_gt _ _) (Z.lt_gt _ _ Hlo)). }
    rewrite Hp.
    destruct (goToSlide_unlocked_visual (currentIndex (carousel w) - 1) w Hl)
      as (Hi1 & Hs1 & _).
    unfold next, lastIndex.
    cbn [unlockAnimation carousel set_carousel set_isAnimating currentIndex slides_length].
    rewrite Hi1, Hs1. fold (lastIndex (carousel w)).
    destruct (Z.ltb_spec (currentIndex (carousel w) - 1) (lastIndex (carousel w))); [|lia].
    replace (currentIndex (carousel w) - 1 + 1) with (currentIndex (carousel w)) by lia.
    by apply (there_and_back (currentIndex (carousel w))).
Qed.

(** X10, witness: the demo carousel on its first slide and on its last. *)
Lemma next_prev_undo_witness :
  visual (carousel (prev (unlockAnimation (next demoWorld)))) = visual (carousel demoWorld) /\
  visual (carousel (next (unlockAnimation (prev demoWorldLast)))) =
  visual (carousel demoWorldLast).
Proof.
  split.
  - apply (proj1 (next_prev_undo demoWorld eq_refl eq_refl)).
    vm_compute. split; [discriminate|reflexivity].
  - apply (proj2 (next_prev_undo demoWorldLast eq_refl eq_refl)).
    vm_compute. split; [reflexivity|discriminate].
Defined.

(* ===================================================================== *)
(** ** Touch events outside a gesture; the resize timeout *)
(* ===================================================================== *)

Lemma putWorld_same p k :
  container p = Some k -> putWorld (touch k) (worldOf p k) p k = p.
Proof. destruct p, k. cbn. by intros ->. Qed.

(** X11: a gesture is resolved once.  [touchend] always leaves
    [isDragging] false, and while [isDragging] is false (before the first
    [touchstart], and between a [touchend] and the next [touchstart]) a
    [touchmove] or a [touchend] changes nothing on the page: no
    navigation, no timer, no recorded position. *)
Theorem touch_outside_gesture_ignored :
  (forall (p p1 : Page) (k1 : Container),
     step p TouchEnd = Some p1 -> container p1 = Some k1 ->
     isDragging (touch k1) = false) /\
  (forall (p : Page) (k : Container) (x : Z),
     container p = Some k -> isDragging (touch k) = false ->
     step p (TouchMove x) = Some p /\ step p TouchEnd = Some p).
Proof.
  split.
  - intros p p1 k1 Hs Hk1. cbn [step] in Hs.
    destruct (container p) as [k|]; [|discriminate].
    cbn [widgetEvent] in Hs. destruct (touchend (touch k) (worldOf p k)) as [t' w'] eqn:E.
    injection Hs as <-. cbn in Hk1. injection Hk1 as <-. cbn.
    unfold touchend in E. destruct (isDragging (touch k)) eqn:Hd.
    + by injection E as <- _.
    + by injection E as <- _.
  - intros p k x Hk Hd. cbn [step]. rewrite Hk. cbn [widgetEvent].
    unfold touchmove, touchend. rewrite Hd.
    by rewrite putWorld_same.
Qed.

(** X11, witness: on the demo page a second [touchend] after a swipe is a
    no-op. *)
Lemma touch_outside_gesture_ignored_witness :
  step (after [TouchStart 200; TouchMove 100; TouchEnd]) TouchEnd =
  Some (after [TouchStart 200; TouchMove 100; TouchEnd]).
Proof.
  destruct touch_outside_gesture_ignored as [Hend Hidle].
  set (es := [TouchStart 200; TouchMove 100; TouchEnd]).
  assert (Hk : exists k, container (after es) = Some k).
  { eexists. vm_compute. reflexivity. }
  destruct Hk as (k & Hk).
  assert (Hs : step (after [TouchStart 200; TouchMove 100]) TouchEnd = Some (after es))
    by (vm_compute; reflexivity).
  exact (proj2 (Hidle (after es) k 0 Hk (Hend _ _ k Hs Hk))).
Defined.

(* ===================================================================== *)
(** ** An empty track *)
(* ===================================================================== *)

Lemma inert_update w animate : inert w -> inert (updateCarousel 0 animate w).
Proof.
  intros (Hs & Hi & Hn & Hr). unfold inert.
  rewrite updateCarousel_slides. split; [done|].
  destruct (isAnimating (carousel w) && animate) eqn:Hg.
  - apply andb_prop in Hg as [Hl ->]. by rewrite updateCarousel_locked.
  - rewrite updateCarousel_index by done. split; [done|].
    split; [|by apply updateCarousel_rendered].
    rewrite updateCarousel_dom by done. cbn. by rewrite Hn.
Qed.

Lemma sameButHandle_inert w w' :
  sameButHandle (carousel w) (carousel w') -> inert w -> inert w'.
Proof.
  intros Hsame (Hs & Hi & Hn & Hr). pose proof (sameButHandle_rendered _ _ Hsame Hr).
  destruct Hsame as (Hd & Hl & Hc & _). unfold inert. by rewrite Hd, Hl, Hc.
Qed.

Lemma inert_reachable mk p : emptyTrack mk -> reachable (Some mk) p -> holds inert p.
Proof.
  intros [Hs Hi]. apply holds_reachable.
  - unfold initialWorld, init.
    eapply sameButHandle_inert; [apply startAutoplay_same|].
    set (w0 := {| browser := initialBrowser; carousel := newCarousel mk; calls := [] |}).
    unfold inert. split; [by rewrite updateCarousel_slides|].
    split; [by rewrite updateCarousel_index|]. split.
    + rewrite updateCarousel_dom by done. cbn [indicators].
      change (indicators (dom (carousel w0))) with (indicatorElements mk).
      by rewrite Hi.
    + unfold rendered, lastIndex.
      rewrite updateCarousel_slides, updateCarousel_index, updateCarousel_dom by done.
      cbn [indicators]. by rewrite imap_mark_again.
  - intros w (Hs' & Hi' & Hn). unfold next, lastIndex. by rewrite Hs', Hi'.
  - intros w (Hs' & Hi' & Hn). unfold prev. by rewrite Hi'.
  - intros w i Hlt (Hs' & Hi' & Hn & _). rewrite Hn in Hlt. cbn in Hlt. lia.
  - intros w. apply sameButHandle_inert, stopAutoplay_same.
  - intros w. apply sameButHandle_inert, startAutoplay_same.
  - intros w H. exact H.
  - intros w H. pose proof H as (Hs' & Hi' & Hn). unfold autoplayTick, lastIndex.
    rewrite Hs', Hi'. cbn. by apply inert_update.
  - intros w b H _. exact H.
Qed.

(** X13: on a container whose track is empty (no slides, no indicators)
    the carousel is inert: in every state of the session [currentIndex]
    is 0 although [slideCount] is 0,
    the track offset is 0, the previous button is disabled and the next
    button is enabled; [next()], [prev()], keys and swipes change nothing,
    and each autoplay tick re-renders index 0. *)
Theorem empty_track_inert (mk : Markup) (p : Page) (k : Container) :
  emptyTrack mk -> reachable (Some mk) p -> container p = Some k ->
  slides_length (instance k) = 0%nat /\
  currentIndex (instance k) = 0 /\
  track_offset (dom (instance k)) = 0 /\
  disabled (prevButton (dom (instance k))) = true /\
  disabled (nextButton (dom (instance k))) = false /\
  next (worldOf p k) = worldOf p k /\
  prev (worldOf p k) = worldOf p k /\
  currentIndex (carousel (autoplayTick (worldOf p k))) = 0.
Proof.
  intros He Hp Hk.
  destruct (inert_reachable mk p He Hp) as (k' & Hk' & _ & Hin).
  rewrite Hk in Hk'. injection Hk' as <-.
  pose proof Hin as (Hs & Hi & Hn & Hr).
  change (carousel (worldOf p k)) with (instance k) in Hs, Hi, Hn, Hr.
  unfold rendered, lastIndex in Hr. rewrite Hs, Hi in Hr.
  split; [done|]. split; [done|].
  split; [by rewrite Hr|]. split; [by rewrite Hr|]. split; [by rewrite Hr|].
  split; [|split].
  - unfold next, lastIndex. cbn [worldOf carousel]. by rewrite Hs, Hi.
  - unfold prev. cbn [worldOf carousel]. by rewrite Hi.
  - unfold autoplayTick, lastIndex. cbn [worldOf carousel]. rewrite Hs, Hi. cbn.
    by destruct (inert_update (worldOf p k) true Hin) as (_ & ? & _).
Qed.

(** X13, witness: the page built on an empty container, after a click on
    "next", five seconds and the first tick. *)
Lemma empty_track_inert_witness :
  exists p k,
    run (load (Some emptyMarkup)) [ClickNext; Elapse 5000; Fire 1%positive] = Some p /\
    container p = Some k /\ currentIndex (instance k) = 0 /\
    disabled (nextButton (dom (instance k))) = false.
Proof.
  set (es := [ClickNext; Elapse 5000; Fire 1%positive]).
  destruct (run (load (Some emptyMarkup)) es) as [p|] eqn:Hr; [|by vm_compute in Hr].
  assert (Hp : reachable (Some emptyMarkup) p)
    by exact (run_reachable _ _ _ _ (reach_load _) Hr).
  assert (Hk : exists k, container p = Some k).
  { vm_compute in Hr. injection Hr as <-. eexists. reflexivity. }
  destruct Hk as (k & Hk).
  destruct (empty_track_inert emptyMarkup p k (conj eq_refl eq_refl) Hp Hk)
    as (_ & Hi & _ & _ & Hn & _).
  exists p, k. split; [reflexivity|]. split; [exact Hk|]. split; [exact Hi|exact Hn].
Defined.

(* ===================================================================== *)
(** ** Scroll animations and lazy images *)
(* ===================================================================== *)

Lemma hits_cons e es :
  hits (e :: es) = if isIntersecting e then target e :: hits es else hits es.
Proof. unfold hits. cbn. by destruct (isIntersecting e). Qed.

Lemma scrollCallback_elem entries animated j :
  j ∈ scrollCallback entries animated <-> j ∈ animated \/ j ∈ hits entries.
Proof.
  revert animated. induction entries as [|e es IH]; intros animated.
  - cbn. rewrite elem_of_nil. tauto.
  - change (scrollCallback (e :: es) animated)
      with (scrollCallback es (animateEntry animated e)).
    rewrite IH, hits_cons. unfold animateEntry.
    destruct (isIntersecting e); [|done].
    rewrite elem_of_union, elem_of_singleton, elem_of_cons. tauto.
Qed.

(** X14: the scroll animator only ever adds the ['aos-animate'] class.
    After a batch of entries an element is animated exactly when it
    already was or the batch reports it intersecting; an element that has
    been revealed stays revealed whatever later entries say (non-
    intersecting entries remove nothing), and delivering the same batch
    again changes nothing. *)
Theorem revealed_elements_stay (entries : list Entry) (animated : gset nat) :
  (forall j, j ∈ scrollCallback entries animated <->
             j ∈ animated \/ j ∈ hits entries) /\
  animated ⊆ scrollCallback entries animated /\
  scrollCallback entries (scrollCallback entries animated) =
  scrollCallback entries animated.
Proof.
  split; [intros j; apply scrollCallback_elem|]. split.
  - intros j Hj. apply scrollCallback_elem. by left.
  - apply set_eq. intros j. rewrite !scrollCallback_elem. tauto.
Qed.

Lemma lazyCallback_cons e es s :
  lazyCallback (e :: es) s = lazyCallback es (lazyEntry s e).
Proof. done. Qed.

Lemma hitCount_cons j e es :
  hitCount j (e :: es) =
  if isIntersecting e && Nat.eqb j (target e) then S (hitCount j es) else hitCount j es.
Proof.
  unfold hitCount. rewrite hits_cons. destruct (isIntersecting e); [|done].
  cbn. by destruct (Nat.eqb j (target e)).
Qed.

Lemma lazyCallback_observed entries s j :
  j ∈ lz_observed (lazyCallback entries s) <-> j ∈ lz_observed s /\ j ∉ hits entries.
Proof.
  revert s. induction entries as [|e es IH]; intros s.
  - cbn. rewrite elem_of_nil. tauto.
  - rewrite lazyCallback_cons, IH, hits_cons. unfold lazyEntry.
    destruct (isIntersecting e); cbn [lz_observed]; [|done].
    rewrite elem_of_difference, elem_of_singleton, not_elem_of_cons. tauto.
Qed.

Lemma lazyCallback_lookup entries s j :
  lz_images (lazyCallback entries s) !! j =
  Nat.iter (hitCount j entries) loadImg <$> lz_images s !! j.
Proof.
  revert s. induction entries as [|e es IH]; intros s.
  - cbn. by destruct (lz_images s !! j).
  - rewrite lazyCallback_cons, IH, hitCount_cons. unfold lazyEntry.
    destruct (isIntersecting e); cbn [andb lz_images]; [|done].
    destruct (Nat.eqb_spec j (target e)) as [->|Hne].
    + rewrite lookup_alter_eq. destruct (lz_images s !! target e) as [i|]; [|done].
      cbn [fmap option_fmap option_map]. f_equal. symmetry. apply Nat.iter_succ_r.
    + by rewrite lookup_alter_ne.
Qed.

Lemma count_absent (j : nat) (l : list nat) :
  j ∉ l -> length (List.filter (Nat.eqb j) l) = 0%nat.
Proof.
  induction l as [|x l IH]; [done|]. rewrite not_elem_of_cons. intros [Hne Hn].
  cbn. destruct (Nat.eqb_spec j x); [done|]. by apply IH.
Qed.

Lemma count_present (j : nat) (l : list nat) :
  j ∈ l -> (1 <= length (List.filter (Nat.eqb j) l))%nat.
Proof.
  induction l as [|x l IH]; [by rewrite elem_of_nil|]. rewrite elem_of_cons.
  intros Hin. cbn. destruct (Nat.eqb_spec j x) as [->|Hne]; [cbn; lia|].
  apply IH. by destruct Hin.
Qed.

Lemma count_NoDup (j : nat) (l : list nat) :
  NoDup l -> j ∈ l -> length (List.filter (Nat.eqb j) l) = 1%nat.
Proof.
  induction l as [|x l IH]; [by rewrite elem_of_nil|].
  rewrite NoDup_cons, elem_of_cons. intros [Hx Hnd] Hin. cbn.
  destruct (Nat.eqb_spec j x) as [->|Hne].
  - cbn. f_equal. by apply count_absent.
  - apply IH; [done|]. by destruct Hin.
Qed.

Lemma loadImg_again i :
  loadImg (loadImg i) = {| img_src := Some "undefined"; img_data_src := None |}.
Proof. done. Qed.

Lemma loadImg_many n i :
  (2 <= n)%nat ->
  Nat.iter n loadImg i = {| img_src := Some "undefined"; img_data_src := None |}.
Proof.
  intros Hn. destruct n as [|[|n]]; [lia|lia|].
  induction n as [|n IH]; [done|].
  change (Nat.iter (S (S (S n))) loadImg i)
    with (loadImg (Nat.iter (S (S n)) loadImg i)).
  rewrite IH by lia. done.
Qed.

(** X15: what one batch of intersection entries does to an image of the
    page.  An image no intersecting entry names is untouched and stays
    observed or not as it was.  An image named once gets the value of its
    [data-src] as [src], loses [data-src] and is unobserved.  An image
    named by an intersecting entry when its [data-src] is already gone --
    a second entry in the same batch, or an entry for an image that never
    had one -- gets the string "undefined" as [src]. *)
Theorem lazy_batch_effect (entries : list Entry) (s : LazyState) (j : nat) (img : Img) :
  lz_images s !! j = Some img ->
  let s' := lazyCallback entries s in
  (j ∉ hits entries ->
   lz_images s' !! j = Some img /\ (j ∈ lz_observed s' <-> j ∈ lz_observed s)) /\
  (j ∈ hits entries -> j ∉ lz_observed s') /\
  (hitCount j entries = 1%nat ->
   lz_images s' !! j =
     Some {| img_src := Some (datasetSrc img); img_data_src := None |}) /\
  ((2 <= hitCount j entries)%nat ->
   lz_images s' !! j = Some {| img_src := Some "undefined"; img_data_src := None |}) /\
  (forall u, img_data_src img = Some u -> datasetSrc img = u) /\
  (img_data_src img = None -> datasetSrc img = "undefined").
Proof.
  intros Hj s'. subst s'. split; [|split; [|split; [|split; [|split]]]].
  - intros Hn. split.
    + rewrite lazyCallback_lookup, Hj. unfold hitCount. by rewrite count_absent.
    + rewrite lazyCallback_observed. tauto.
  - intros Hin. rewrite lazyCallback_observed. tauto.
  - intros H1. by rewrite lazyCallback_lookup, Hj, H1.
  - intros H2. rewrite lazyCallback_lookup, Hj. cbn. by rewrite loadImg_many.
  - intros u Hu. unfold datasetSrc. by rewrite Hu.
  - intros Hu. unfold datasetSrc. by rewrite Hu.
Qed.

(** X15, witness: image 0 of the demo page named twice in one batch. *)
Lemma lazy_batch_effect_witness :
  lz_images (lazyCallback [{| target := 0; isIntersecting := true |};
                           {| target := 0; isIntersecting := true |}]
                          (lazyLoadImages demoImages)) !! 0%nat =
  Some {| img_src := Some "undefined"; img_data_src := None |}.
Proof.
  assert (H0 : lz_images (lazyLoadImages demoImages) !! 0%nat =
               Some {| img_src := None; img_data_src := Some "a.png" |})
    by reflexivity.
  destruct (lazy_batch_effect
              [{| target := 0; isIntersecting := true |};
               {| target := 0; isIntersecting := true |}]
              _ 0%nat _ H0) as (_ & _ & _ & H2 & _).
  apply H2. vm_compute. lia.
Defined.

Lemma lazyStatus_initial imgs i img0 :
  imgs !! i = Some img0 -> lazyStatus img0 i (lazyLoadImages imgs).
Proof.
  intros Hi. left. split; [done|]. cbn.
  rewrite elem_of_dom. split.
  - intros Hd. exists img0. by apply map_lookup_filter_Some.
  - intros [x Hx]. apply map_lookup_filter_Some in Hx as [Hx Hd].
    cbn in Hd. congruence.
Qed.

Lemma lazyStatus_batch img0 i s entries :
  regular s entries -> lazyStatus img0 i s -> lazyStatus img0 i (lazyCallback entries s).
Proof.
  intros [Hnd Hobs] Hst. destruct (decide (i ∈ hits entries)) as [Hin|Hout].
  - right. destruct Hst as [[Hlk Hd]|(u & _ & _ & Hno)]; [|by apply Hobs in Hin].
    pose proof (proj2 Hd (Hobs i Hin)) as Hhas. unfold hasDataSrc in Hhas.
    destruct (img_data_src img0) as [u|] eqn:Hu; [|done].
    exists u. split; [done|]. split.
    + rewrite lazyCallback_lookup, Hlk. unfold hitCount.
      rewrite count_NoDup by done. cbn.
      unfold loadImg, datasetSrc. by rewrite Hu.
    + rewrite lazyCallback_observed. tauto.
  - destruct Hst as [[Hlk Hd]|(u & Hu & Hlk & Hno)]; [left|right].
    + split.
      * rewrite lazyCallback_lookup, Hlk. unfold hitCount. by rewrite count_absent.
      * rewrite lazyCallback_observed. tauto.
    + exists u. split; [done|]. split.
      * rewrite lazyCallback_lookup, Hlk. unfold hitCount. by rewrite count_absent.
      * rewrite lazyCallback_observed. tauto.
Qed.

(** X16: the lazy-image contract over a whole session.  Start from
    [lazyLoadImages] and let batches arrive that name each target at most
    once as intersecting and only while it is observed.  Then every image
    of the page is, at every point, in one of two states: untouched (and
    observed exactly if it has a [data-src]), or loaded -- its [src] is the
    [data-src] it had, [data-src] is gone and it is no longer observed.  A
    loaded image is never loaded again, reverted or given another
    source. *)
Theorem lazy_images_load_once
    (imgs : gmap nat Img) (batches : list (list Entry)) (i : nat) (img0 : Img) :
  regularRun batches (lazyLoadImages imgs) -> imgs !! i = Some img0 ->
  lazyStatus img0 i (lazyRun batches (lazyLoadImages imgs)).
Proof.
  intros Hreg Hi. pose proof (lazyStatus_initial imgs i img0 Hi) as Hst.
  revert Hreg Hst. generalize (lazyLoadImages imgs).
  induction batches as [|b bs IH]; intros s Hreg Hst; [exact Hst|].
  destruct Hreg as [Hb Hbs].
  change (lazyRun (b :: bs) s) with (lazyRun bs (lazyCallback b s)).
  apply IH; [exact Hbs|]. by apply lazyStatus_batch.
Qed.

(** X16, witness: the demo session; image 0 ends up in one of the two
    states. *)
Lemma lazy_images_load_once_witness :
  lazyStatus {| img_src := None; img_data_src := Some "a.png" |} 0
             (lazyRun demoBatches (lazyLoadImages demoImages)).
Proof.
  apply lazy_images_load_once; [|reflexivity].
  split; [|split; [|exact I]].
  - split.
    + change (hits _) with [0%nat]. apply NoDup_singleton.
    + intros j Hj. change (hits _) with [0%nat] in Hj.
      apply list_elem_of_singleton in Hj. subst j. by vm_compute.
  - split.
    + change (hits _) with [1%nat]. apply NoDup_singleton.
    + intros j Hj. change (hits _) with [1%nat] in Hj.
      apply list_elem_of_singleton in Hj. subst j. by vm_compute.
Defined.

(* ===================================================================== *)
(** ** The live region *)
(* ===================================================================== *)

Lemma liveInv_step l e l' : liveInv l -> liveStep l e = Some l' -> liveInv l'.
Proof.
  intros [Hdue Htext] Hs. destruct e as [m|i|dt]; cbn [liveStep] in Hs.
  - injection Hs as <-. split; cbn.
    + intros d. rewrite elem_of_app, list_elem_of_singleton.
      intros [Hd| ->]; [by apply Hdue|lia].
    + intros _ Hnil. by apply app_eq_nil in Hnil as [_ ?].
  - unfold liveClear in Hs. destruct (live_clears l !! i) as [d|] eqn:Hi; [|done].
    destruct (d <=? live_now l); [|done]. injection Hs as <-. split; cbn; [|done].
    intros d' Hd'. apply Hdue. by eapply list_elem_of_delete_inv.
  - unfold liveElapse in Hs. destruct (Z.leb_spec 0 dt); [|done].
    injection Hs as <-. split; cbn; [|done].
    intros d Hd. apply Hdue in Hd. lia.
Qed.

(** X17: an announcement never stays for good.  In every state of the
    live region, if its text is not empty then a clearing timeout is
    pending, and every pending clearing timeout is due at most 1000 ms
    from now. *)
Theorem announcement_gets_cleared (l : LiveRegion) :
  liveReachable l ->
  (live_text l <> "" -> exists d, d ∈ live_clears l /\ d <= live_now l + 1000) /\
  (forall d, d ∈ live_clears l -> d <= live_now l + 1000).
Proof.
  intros Hr.
  assert (Hinv : liveInv l).
  { induction Hr as [|l e l' _ IH Hs]; [|by eapply liveInv_step].
    split; cbn; [intros d Hd; by apply elem_of_nil in Hd|done]. }
  destruct Hinv as [Hdue Htext]. split; [|exact Hdue].
  intros Hne. specialize (Htext Hne).
  destruct (live_clears l) as [|d ds] eqn:E; [done|].
  exists d. split; [apply list_elem_of_here|]. apply Hdue, list_elem_of_here.
Qed.

(** X17, witness: a message announced 300 ms ago. *)
Lemma announcement_gets_cleared_witness :
  exists d, d ∈ live_clears {| live_text := "Slide 2 of 3";
                               live_clears := [1000];
                               live_now := 300 |} /\ d <= 300 + 1000.
Proof.
  assert (Hr : liveReachable {| live_text := "Slide 2 of 3";
                                live_clears := [1000];
                                live_now := 300 |}).
  { apply (live_step (announceToScreenReader "Slide 2 of 3" setupAriaLive)
                     (LiveElapse 300)); [|reflexivity].
    apply (live_step setupAriaLive (Announce "Slide 2 of 3"));
      [apply live_init|reflexivity]. }
  refine (proj1 (announcement_gets_cleared _ Hr) _). discriminate.
Defined.

(** X18: a clearing timeout is not tied to the message that scheduled it.
    If a clear is pending, due at [d], when a new message is announced,
    then at [d] that timeout can run and it empties the region: the new
    message is wiped [d - now] ms after it was set, whatever is left of
    its own 1000 ms, and the timeout it scheduled itself is still
    pending. *)
Theorem older_clear_wipes_newer_message
    (l : LiveRegion) (i : nat) (d : Z) (message : string) :
  live_clears l !! i = Some d -> live_now l <= d ->
  exists l1 l2,
    liveElapse (d - live_now l) (announceToScreenReader message l) = Some l1 /\
    liveClear i l1 = Some l2 /\
    live_text l1 = message /\
    live_text l2 = "" /\
    live_now l2 = d /\
    (live_now l + 1000) ∈ live_clears l2.
Proof.
  intros Hi Hd.
  eexists. eexists. split.
  { unfold liveElapse. rewrite (proj2 (Z.leb_le _ _)) by lia. reflexivity. }
  cbn [live_text live_now live_clears announceToScreenReader].
  split.
  { unfold liveClear. cbn [live_clears live_now].
    rewrite lookup_app_l by (by eapply lookup_lt_Some).
    rewrite Hi, (proj2 (Z.leb_le _ _)) by lia. reflexivity. }
  cbn [live_text live_now live_clears].
  split; [done|]. split; [done|]. split; [lia|].
  pose proof (lookup_lt_Some _ _ _ Hi) as Hlt.
  apply list_elem_of_lookup. exists (length (live_clears l) - 1)%nat.
  rewrite list_lookup_delete_ge by lia.
  rewrite lookup_app_r by lia.
  replace (S (length (live_clears l) - 1) - length (live_clears l))%nat with 0%nat by lia.
  done.
Qed.

(** X18, witness: a second message 900 ms after a first is wiped 100 ms
    later. *)
Lemma older_clear_wipes_newer_message_witness :
  exists l1 l2,
    liveElapse (1000 - 900)
      (announceToScreenReader "second"
         {| live_text := "first"; live_clears := [1000]; live_now := 900 |}) = Some l1 /\
    liveClear 0 l1 = Some l2 /\ live_text l2 = "".
Proof.
  destruct (older_clear_wipes_newer_message
              {| live_text := "first"; live_clears := [1000]; live_now := 900 |}
              0 1000 "second" eq_refl)
    as (l1 & l2 & H1 & H2 & _ & H3 & _); [cbn; lia|].
  exists l1, l2. split; [exact H1|]. split; [exact H2|exact H3].
Defined.

(* ===================================================================== *)
(** ** Animated updates, leaked intervals, disabled buttons *)
(* ===================================================================== *)

(** X19: the [animate] flag decides about the lock and nothing else.
    With the lock clear, [updateCarousel(index)] shows exactly what
    [updateCarousel(index, false)] shows (index, track offset, indicators,
    buttons); it differs in leaving the lock set and in scheduling one
    timeout, 500 ms ahead, under a handle that was not in use, all other
    timers staying as they were. *)
Theorem animate_only_affects_lock (w : World) (index : Z) :
  freshTimers (browser w) -> isAnimating (carousel w) = false ->
  visual (carousel (updateCarousel index true w)) =
  visual (carousel (updateCarousel index false w)) /\
  isAnimating (carousel (updateCarousel index true w)) = true /\
  isAnimating (carousel (updateCarousel index false w)) = false /\
  browser (updateCarousel index false w) = browser w /\
  timers (browser w) !! nextId (browser w) = None /\
  timers (browser (updateCarousel index true w)) =
    <[nextId (browser w) := unlockTimer (now (browser w))]> (timers (browser w)).
Proof.
  intros Hf Hl.
  assert (Ht : isAnimating (carousel w) && true = false) by (by rewrite Hl).
  assert (Hn : isAnimating (carousel w) && false = false) by (by rewrite Hl).
  split; [|split; [|split; [|split; [|split]]]].
  - unfold visual.
    by rewrite !updateCarousel_index, !updateCarousel_dom by done.
  - by apply updateCarousel_lock.
  - by apply updateCarousel_lock.
  - rewrite updateCarousel_browser. by rewrite andb_false_r.
  - destruct (timers (browser w) !! nextId (browser w)) as [t|] eqn:E; [|done].
    apply Hf in E. lia.
  - rewrite updateCarousel_browser, Hl. reflexivity.
Qed.

(** X19, witness: the third slide of the demo carousel, animated or
    not. *)
Lemma animate_only_affects_lock_witness :
  visual (carousel (updateCarousel 2 true (stopAutoplay demoWorld))) =
  visual (carousel (updateCarousel 2 false (stopAutoplay demoWorld))).
Proof.
  assert (Hf : freshTimers (browser (stopAutoplay demoWorld))).
  { intros id t. vm_compute. intros H. discriminate H. }
  exact (proj1 (animate_only_affects_lock (stopAutoplay demoWorld) 2 Hf eq_refl)).
Defined.

Lemma leaked_update id r w index animate :
  wired (r, w) -> leaked id w -> leaked id (updateCarousel index animate w).
Proof.
  intros [Hw _] [(t & Hlk & Hcb) Hh]. cbn [fst snd] in Hw. split.
  - exists t. split; [|done]. rewrite updateCarousel_browser.
    destruct (negb _ && animate); [|done]. cbn.
    rewrite lookup_insert_ne; [done|]. apply (wi_fresh _ _ _ _ Hw) in Hlk. lia.
  - by rewrite updateCarousel_handle.
Qed.

Lemma leaked_stop id w : leaked id w -> leaked id (stopAutoplay w).
Proof.
  intros [(t & Hlk & Hcb) Hh]. unfold stopAutoplay.
  destruct (autoplayInterval (carousel w)) as [h|] eqn:E;
    [|split; [by eauto|by rewrite E]].
  split; cbn; [|done]. exists t. split; [|done].
  rewrite lookup_delete_ne; [done|]. congruence.
Qed.

Lemma leaked_start id r w : wired (r, w) -> leaked id w -> leaked id (startAutoplay w).
Proof.
  intros [Hw _] [(t & Hlk & Hcb) Hh]. cbn [fst snd] in Hw.
  pose proof (wi_fresh _ _ _ _ Hw id t Hlk) as Hlt. split; cbn.
  - exists t. split; [|done]. rewrite lookup_insert_ne; [done|]. lia.
  - intros [= E]. lia.
Qed.

Lemma leaked_goToSlide id r w index :
  wired (r, w) -> leaked id w -> leaked id (goToSlide index w).
Proof.
  intros Hw Hl. unfold goToSlide, resetAutoplay.
  apply (leaked_start id r); [by apply wired_stop, wired_update|].
  by apply leaked_stop, (leaked_update id r).
Qed.

Lemma leaked_tick id r w : wired (r, w) -> leaked id w -> leaked id (autoplayTick w).
Proof.
  intros Hw Hl. unfold autoplayTick, next. repeat case_match.
  - by apply (leaked_goToSlide id r).
  - by apply (leaked_update id r).
Qed.

Lemma wired_intervals r w id t :
  wired (r, w) -> timers (browser w) !! id = Some t -> callback t = AutoplayTick ->
  period t = Some 5000.
Proof.
  intros [Hw _] Hlk Hcb. cbn [fst snd] in Hw.
  pose proof (wi_timers _ _ _ _ Hw id t Hlk) as Hok. unfold timerOk in Hok.
  rewrite Hcb in Hok. tauto.
Qed.

Lemma leaked_settle id j w :
  (forall t, timers (browser w) !! id = Some t -> callback t = AutoplayTick ->
             period t = Some 5000) ->
  leaked id w -> leaked id (set_browser (settle j (browser w)) w).
Proof.
  intros Hint [(t & Hlk & Hcb) Hh]. split; [|done]. cbn.
  destruct (decide (j = id)) as [->|Hne]; [|exists t; by rewrite settle_lookup_ne].
  unfold settle. rewrite Hlk, (Hint t Hlk Hcb). cbn. eexists. by rewrite lookup_insert_eq.
Qed.

Lemma leaked_move id e s s' :
  wired s -> leaked id s.2 -> move e s s' -> leaked id s'.2.
Proof.
  intros Hw Hl Hm. destruct Hm; cbn [snd] in *.
  - done.
  - unfold next. case_match; [by apply (leaked_goToSlide id r)|done].
  - unfold prev. case_match; [by apply (leaked_goToSlide id r)|done].
  - by apply (leaked_goToSlide id r).
  - by apply leaked_stop.
  - by apply (leaked_start id r).
  - destruct Hl as [(t & Hlk & Hcb) Hh]. destruct Hw as [Hw _]. cbn [fst snd] in Hw.
    pose proof (wi_fresh _ _ _ _ Hw id t Hlk) as Hlt.
    split; [|done]. exists t. split; [|done]. unfold resizeOp. cbn.
    destruct r as [old|]; cbn.
    + rewrite lookup_insert_ne by lia. rewrite lookup_delete_ne; [done|].
      intros <-. destruct (wi_resize _ _ _ _ Hw old eq_refl) as [_ Hr].
      specialize (Hr t Hlk). congruence.
    + by rewrite lookup_insert_ne by lia.
  - destruct Hl as [(t & Hlk & Hcb) Hh]. split; [|done]. by exists t.
  - apply leaked_settle.
    + destruct (callback t); cbn [handler].
      * intros t'. by apply (wired_intervals r w).
      * intros t'. by apply (wired_intervals r _ _ _ (wired_tick r w Hw)).
      * intros t'. by apply (wired_intervals r w).
    + destruct (callback t); cbn [handler]; [exact Hl|by apply (leaked_tick id r)|exact Hl].
Qed.

(** X20: an autoplay interval that the handle has lost is never cleared.
    If, in a state of a session, timer [id] is an autoplay interval and
    [autoplayInterval] does not hold [id], then after any step of the page
    -- a click, key, swipe, hover, resize, any timer firing, [id] itself
    included -- [id] is still a pending autoplay interval and the handle
    still does not hold it. *)
Theorem leaked_interval_persists
    (mk : Markup) (p p' : Page) (e : Event) (k : Container) (id : positive) (t : Timer) :
  reachable (Some mk) p -> step p e = Some p' -> container p = Some k ->
  timers (page_browser p) !! id = Some t -> callback t = AutoplayTick ->
  autoplayInterval (instance k) <> Some id ->
  exists k' t',
    container p' = Some k' /\
    timers (page_browser p') !! id = Some t' /\ callback t' = AutoplayTick /\
    autoplayInterval (instance k') <> Some id.
Proof.
  intros Hp Hs Hk Hlk Hcb Hh.
  destruct (wired_reachable mk p Hp) as (k0 & Hk0 & Hn & Hw).
  rewrite Hk in Hk0. injection Hk0 as <-.
  destruct (step_move _ _ _ _ Hk Hn Hs) as (k' & Hk' & _ & Hm).
  assert (Hl : leaked id (worldOf p k)) by (split; [by exists t|done]).
  destruct (leaked_move id _ _ _ Hw Hl Hm) as [(t' & Hlk' & Hcb') Hh'].
  exists k', t'. done.
Qed.

(** X20, witness: interval 3 of the demo page, lost when the pointer left
    the carousel, fires five seconds later and is still there. *)
Lemma leaked_interval_persists_witness :
  exists t',
    timers (page_browser (after (hoverClickLeave ++ [Elapse 5000; Fire 3%positive])))
      !! 3%positive = Some t' /\
    callback t' = AutoplayTick.
Proof.
  set (es := hoverClickLeave ++ [Elapse 5000]).
  assert (Hp : reachable (Some demoMarkup) (after es)).
  { apply (run_reachable _ _ es _ (reach_load _)). vm_compute. reflexivity. }
  assert (Hs : step (after es) (Fire 3%positive) =
               Some (after (hoverClickLeave ++ [Elapse 5000; Fire 3%positive])))
    by (vm_compute; reflexivity).
  assert (Hk : exists k, container (after es) = Some k /\
                         autoplayInterval (instance k) = Some 4%positive).
  { eexists. split; [vm_compute; reflexivity|reflexivity]. }
  destruct Hk as (k & Hk & Hh).
  destruct (leaked_interval_persists demoMarkup _ _ _ k 3%positive (autoplayTimer 0)
              Hp Hs Hk) as (k' & t' & _ & Hlk & Hcb & _);
    [vm_compute; reflexivity|reflexivity|rewrite Hh; discriminate|].
  exists t'. split; [exact Hlk|exact Hcb].
Defined.

(** X21: the [disabled] state of the buttons tells the truth about the
    methods behind them.  In every state of a session, a click on a
    disabled "next" (or "previous") button would change nothing on the
    page; and on a container with at least one slide and no more
    indicators than slides, a click on an enabled button while the lock is
    clear moves the index by exactly one. *)
Theorem disabled_means_noop (mk : Markup) (p : Page) (k : Container) :
  reachable (Some mk) p -> container p = Some k ->
  (disabled (nextButton (dom (instance k))) = true -> step p ClickNext = Some p) /\
  (disabled (prevButton (dom (instance k))) = true -> step p ClickPrev = Some p) /\
  (wellFormed mk -> isAnimating (instance k) = false ->
   disabled (nextButton (dom (instance k))) = false ->
   currentIndex (carousel (next (worldOf p k))) = currentIndex (instance k) + 1) /\
  (wellFormed mk -> isAnimating (instance k) = false ->
   disabled (prevButton (dom (instance k))) = false ->
   currentIndex (carousel (prev (worldOf p k))) = currentIndex (instance k) - 1).
Proof.
  intros Hp Hk.
  destruct (renderInv_reachable mk p Hp) as (k0 & Hk0 & _ & Hr & _).
  rewrite Hk in Hk0. injection Hk0 as <-.
  change (carousel (worldOf p k)) with (instance k) in Hr. unfold rendered in Hr.
  pose proof (f_equal (fun d => disabled (nextButton d)) Hr) as Hnb.
  pose proof (f_equal (fun d => disabled (prevButton d)) Hr) as Hpb.
  cbn in Hnb, Hpb. rewrite Hnb, Hpb.
  split; [|split; [|split]].
  - intros Hd. apply Z.eqb_eq in Hd. cbn [step]. rewrite Hk. cbn [widgetEvent].
    unfold next. cbn [worldOf carousel]. rewrite Hd, Z.ltb_irrefl.
    by rewrite putWorld_same.
  - intros Hd. apply Z.eqb_eq in Hd. cbn [step]. rewrite Hk. cbn [widgetEvent].
    unfold prev. cbn [worldOf carousel]. rewrite Hd. cbn.
    by rewrite putWorld_same.
  - intros Hwf Hl Hd. apply Z.eqb_neq in Hd.
    destruct (rangeInv_reachable mk p Hwf Hp) as (k0 & Hk0 & _ & _ & Hrange).
    rewrite Hk in Hk0. injection Hk0 as <-.
    change (carousel (worldOf p k)) with (instance k) in Hrange.
    unfold indexInRange in Hrange. unfold lastIndex in Hd.
    unfold next, lastIndex. cbn [worldOf carousel].
    destruct (Z.ltb_spec (currentIndex (instance k))
                         (Z.of_nat (slides_length (instance k)) - 1)); [|lia].
    destruct (goToSlide_unlocked_visual (currentIndex (instance k) + 1)
                {| browser := page_browser p; carousel := instance k; calls := log k |} Hl)
      as (Hi & _). exact Hi.
  - intros Hwf Hl Hd. apply Z.eqb_neq in Hd.
    destruct (rangeInv_reachable mk p Hwf Hp) as (k0 & Hk0 & _ & _ & Hrange).
    rewrite Hk in Hk0. injection Hk0 as <-.
    change (carousel (worldOf p k)) with (instance k) in Hrange.
    unfold indexInRange in Hrange.
    unfold prev. cbn [worldOf carousel].
    destruct (Z.gtb_spec (currentIndex (instance k)) 0); [|lia].
    destruct (goToSlide_unlocked_visual (currentIndex (instance k) - 1)
                {| browser := page_browser p; carousel := instance k; calls := log k |} Hl)
      as (Hi & _). exact Hi.
Qed.

(** X21, witness: the freshly loaded demo page: "previous" is disabled and
    its click is a no-op, "next" is enabled and its click goes to slide
    1. *)
Lemma disabled_means_noop_witness :
  step (after []) ClickPrev = Some (after []) /\
  exists k, container (after []) = Some k /\
            currentIndex (carousel (next (worldOf (after []) k))) = 1.
Proof.
  assert (Hp : reachable (Some demoMarkup) (after [])) by apply reach_load.
  assert (Hk : exists k, container (after []) = Some k) by (eexists; reflexivity).
  destruct Hk as (k & Hk).
  destruct (disabled_means_noop demoMarkup (after []) k Hp Hk) as (_ & Hprev & Hnext & _).
  split.
  - apply Hprev. injection Hk as <-. reflexivity.
  - exists k. split; [exact Hk|].
    injection Hk as <-.
    exact (Hnext (conj (le_S _ _ (le_S _ _ (le_n 1))) (le_n 3)) eq_refl eq_refl).
Defined.

(* ===================================================================== *)
(** ** Pages without a carousel *)
(* ===================================================================== *)

Lemma resizeOnly_reachable p : reachable None p -> resizeOnly p.
Proof.
  induction 1 as [|p e p' _ [Hc Ht] Hs].
  - split; [done|]. intros id t Hlk. by rewrite initialBrowser_empty in Hlk.
  - destruct e; cbn [step] in Hs; try (rewrite Hc in Hs; discriminate Hs).
    + injection Hs as <-. split; [done|]. intros id t. unfold onResize. cbn.
      rewrite lookup_insert. case_decide.
      * intros [= <-]. cbn. destruct (resizeTimer p); cbn; repeat split; lia.
      * destruct (resizeTimer p) as [old|]; cbn; [|apply Ht].
        rewrite lookup_delete. case_decide; [done|apply Ht].
    + unfold fire in Hs.
      destruct (timers (page_browser p) !! id) as [t0|] eqn:Hlk; [|discriminate].
      destruct (due t0 <=? _); [|discriminate]. injection Hs as <-.
      destruct (Ht id t0 Hlk) as (Hcb & Hper & _).
      rewrite Hcb. cbn [runCallback]. unfold resizeSync. rewrite Hc.
      split; [done|]. intros j t. cbn. unfold settle. rewrite Hlk, Hper. cbn.
      rewrite lookup_delete. case_decide; [done|apply Ht].
    + destruct (Z.leb_spec 0 dt); [|discriminate]. injection Hs as <-.
      split; [done|]. intros id t Hlk. cbn in *.
      destruct (Ht id t Hlk) as (? & ? & ?). repeat split; try done. lia.
Qed.

(* ===================================================================== *)
(** ** The resize timeout, on every page *)
(* ===================================================================== *)

(** X12: the resize listener debounces, on pages with a carousel and on
    pages without one.  In every state of a session at most one resize
    timeout is pending, and it is the one whose handle the listener holds
    in [resizeTimer]; it is a one-shot timer due at most 250 ms from now.
    However many resize events arrive, the handler runs once per quiet
    window. *)
Theorem one_pending_resize_timeout (m : option Markup) (p : Page) :
  reachable m p ->
  (forall id t, timers (page_browser p) !! id = Some t -> callback t = ResizeSync ->
                resizeTimer p = Some id /\ period t = None /\
                due t <= now (page_browser p) + 250) /\
  (forall id1 t1 id2 t2,
     timers (page_browser p) !! id1 = Some t1 -> callback t1 = ResizeSync ->
     timers (page_browser p) !! id2 = Some t2 -> callback t2 = ResizeSync ->
     id1 = id2).
Proof.
  intros Hp. pose proof (debounced_reachable _ _ Hp) as Hd.
  split.
  - intros id t Hlk Hcb. split; [by eapply Hd|].
    destruct m as [mk|].
    + destruct (wired_reachable mk p Hp) as (k & Hk & _ & Hw & _). cbn [fst snd] in Hw.
      pose proof (wi_timers _ _ _ _ Hw id t Hlk) as Hok.
      unfold timerOk in Hok. by rewrite Hcb in Hok.
    + destruct (resizeOnly_reachable p Hp) as [_ Ht].
      destruct (Ht id t Hlk) as (_ & ? & ?). done.
  - intros id1 t1 id2 t2 H1 Hc1 H2 Hc2.
    pose proof (Hd id1 t1 H1 Hc1). pose proof (Hd id2 t2 H2 Hc2). congruence.
Qed.

(** X12, witness: three resize events in a row on the demo page, and two
    on a page without a carousel; one resize timeout is pending on each,
    the last one scheduled. *)
Lemma one_pending_resize_timeout_witness :
  resizeTimer (after [WindowResize; WindowResize; Elapse 10; WindowResize]) =
    Some 4%positive /\
  timers (page_browser (after [WindowResize; WindowResize; Elapse 10; WindowResize]))
    !! 3%positive = None /\
  exists p, run (load None) [WindowResize; Elapse 100; WindowResize] = Some p /\
            resizeTimer p = Some 2%positive.
Proof.
  set (es := [WindowResize; WindowResize; Elapse 10; WindowResize]).
  assert (Hp : reachable (Some demoMarkup) (after es)).
  { apply (run_reachable _ _ es _ (reach_load _)). vm_compute. reflexivity. }
  destruct (one_pending_resize_timeout (Some demoMarkup) (after es) Hp) as [Hone _].
  split; [|split].
  - refine (proj1 (Hone 4%positive
                     {| due := 260; period := None; callback := ResizeSync |} _ eq_refl)).
    vm_compute. reflexivity.
  - vm_compute. reflexivity.
  - destruct (run (load None) [WindowResize; Elapse 100; WindowResize]) as [p|] eqn:Hr;
      [|by vm_compute in Hr].
    pose proof (run_reachable _ _ _ _ (reach_load None) Hr) as Hq.
    exists p. split; [reflexivity|].
    destruct (one_pending_resize_timeout None p Hq) as [Hbare _].
    refine (proj1 (Hbare 2%positive
                     {| due := 350; period := None; callback := ResizeSync |} _ eq_refl)).
    vm_compute in Hr. injection Hr as <-. vm_compute. reflexivity.
Defined.

(* ===================================================================== *)
(** ** The non-animated call and the lock *)
(* ===================================================================== *)













(* ===================================================================== *)
(** ** A tap after earlier gestures *)
(* ===================================================================== *)

Lemma lastRecorded_app es1 es2 g last :
  lastRecorded (es1 ++ es2) g last =
  lastRecorded es2 (lastRecorded es1 g last).1 (lastRecorded es1 g last).2.
Proof.
  revert g last. induction es1 as [|e es1 IH]; intros g last; [done|].
  destruct e; cbn [app lastRecorded]; apply IH.
Qed.

(** One step of the page moves the touch variables as one event moves the
    history. *)
Lemma step_touch p e p' k :
  step p e = Some p' -> container p = Some k ->
  exists k', container p' = Some k' /\
    (isDragging (touch k'), currentX (touch k')) =
    lastRecorded [e] (isDragging (touch k)) (currentX (touch k)).
Proof.
  intros Hs Hk. destruct e; cbn [step] in Hs.
  1-9: rewrite Hk in Hs; cbn [widgetEvent] in Hs.
  - injection Hs as <-. eexists. split; [reflexivity|done].
  - injection Hs as <-. eexists. split; [reflexivity|done].
  - case_bool_decide; [|discriminate]. injection Hs as <-.
    eexists. split; [reflexivity|done].
  - injection Hs as <-. eexists. split; [reflexivity|done].
  - injection Hs as <-. eexists. split; [reflexivity|done].
  - injection Hs as <-. eexists. split; [reflexivity|].
    cbn. unfold touchmove. by destruct (isDragging (touch k)) eqn:E; cbn; rewrite ?E.
  - destruct (touchend (touch k) (worldOf p k)) as [t' w'] eqn:E.
    injection Hs as <-. eexists. split; [reflexivity|]. cbn.
    unfold touchend in E. destruct (isDragging (touch k)) eqn:Hd.
    + by injection E as <- _.
    + injection E as <- _. by rewrite Hd.
  - injection Hs as <-. eexists. split; [reflexivity|done].
  - injection Hs as <-. eexists. split; [reflexivity|done].
  - injection Hs as <-. exists k. split; [exact Hk|done].
  - unfold fire in Hs.
    destruct (timers (page_browser p) !! id) as [t|]; [|discriminate].
    destruct (due t <=? _); [|discriminate]. injection Hs as <-.
    destruct (callback t); cbn [runCallback]; unfold onWorld, resizeSync; rewrite Hk.
    + eexists. split; [reflexivity|done].
    + eexists. split; [reflexivity|done].
    + destruct (carouselInstance k) as [[]|]; eexists; (split; [reflexivity || exact Hk|done]).
  - destruct (0 <=? dt); [|discriminate]. injection Hs as <-.
    exists k. split; [exact Hk|done].
Qed.

(** After any history of events the touch variables hold what the history
    says: whether a gesture is in progress, and the position of the last
    [touchmove] that arrived during a gesture. *)
Lemma run_touch es p0 p k0 :
  run p0 es = Some p -> container p0 = Some k0 ->
  exists k, container p = Some k /\
    (isDragging (touch k), currentX (touch k)) =
    lastRecorded es (isDragging (touch k0)) (currentX (touch k0)).
Proof.
  revert p0 k0. induction es as [|e es IH]; intros p0 k0 Hr Hk0; cbn [run] in Hr.
  - injection Hr as <-. exists k0. split; [exact Hk0|done].
  - destruct (step p0 e) as [p1|] eqn:Hs; [|discriminate].
    destruct (step_touch _ _ _ _ Hs Hk0) as (k1 & Hk1 & Ht1).
    destruct (IH p1 k1 Hr Hk1) as (k & Hk & Ht). exists k. split; [exact Hk|].
    rewrite Ht. change (e :: es) with ([e] ++ es).
    by rewrite lastRecorded_app, <- Ht1.
Qed.

(** A [touchstart] at [x] directly followed by [touchend], as two steps of
    the page. *)
Lemma tap_steps p k x :
  container p = Some k ->
  exists p1 p2 k2,
    step p (TouchStart x) = Some p1 /\ step p1 TouchEnd = Some p2 /\
    container p2 = Some k2 /\
    startX (touch k2) = x /\ currentX (touch k2) = currentX (touch k) /\
    isDragging (touch k2) = false /\
    worldOf p2 k2 =
      (if Z.abs (x - currentX (touch k)) >? 50
       then if x - currentX (touch k) >? 0
            then next (worldOf p k) else prev (worldOf p k)
       else worldOf p k).
Proof.
  intros Hk.
  set (t1 := touchstart x (touch k)).
  set (p1 := putWorld t1 (worldOf p k) p k).
  assert (H1 : step p (TouchStart x) = Some p1).
  { cbn [step]. rewrite Hk. reflexivity. }
  destruct (container p1) as [k1|] eqn:Hk1; [|discriminate].
  assert (Hw1 : worldOf p1 k1 = worldOf p k) by exact (worldOf_putWorld _ _ _ _ _ Hk1).
  assert (Ht1 : touch k1 = t1) by (injection Hk1 as <-; reflexivity).
  destruct (touchend (touch k1) (worldOf p1 k1)) as [t2 w2] eqn:E.
  set (p2 := putWorld t2 w2 p1 k1).
  assert (H2 : step p1 TouchEnd = Some p2).
  { cbn [step]. rewrite Hk1. cbn [widgetEvent]. by rewrite E. }
  destruct (container p2) as [k2|] eqn:Hk2; [|discriminate].
  assert (Hw2 : worldOf p2 k2 = w2) by exact (worldOf_putWorld _ _ _ _ _ Hk2).
  assert (Ht2 : touch k2 = t2) by (injection Hk2 as <-; reflexivity).
  exists p1, p2, k2. split; [exact H1|]. split; [exact H2|]. split; [exact Hk2|].
  rewrite Ht2, Hw2. rewrite Ht1, Hw1 in E. subst t1.
  unfold touchend, touchstart, touchDiff, threshold in E.
  cbn [isDragging startX currentX] in E. by injection E as <- <-.
Qed.

(** C10: a gesture made of a [touchstart] at [x] directly followed by a
    [touchend] is resolved on [x] minus the last position recorded by any
    previous gesture, not on 0.  After any history [es] of events on a
    freshly loaded page, [currentX] is the position of the last
    [touchmove] that arrived during a gesture of [es] (0 if there was
    none): [touchstart] and [touchend] never write it.  A tap at [x] then
    computes the displacement [x - c] with that [c], navigates with
    [next()] or [prev()] when it exceeds 50 pixels either way, and leaves
    [c] in place for the gesture after it.  On the first gesture [c] is 0,
    so a motionless tap at [x > 50] invokes [next()]. *)
Theorem tap_uses_stale_position :
  (forall (mk : Markup) (es : list Event) (p : Page) (k : Container) (x : Z),
     run (load (Some mk)) es = Some p -> container p = Some k ->
     let c := (lastRecorded es false 0).2 in
     currentX (touch k) = c /\
     touchDiff (touchstart x (touch k)) = x - c /\
     exists p1 p2 k2,
       step p (TouchStart x) = Some p1 /\ step p1 TouchEnd = Some p2 /\
       container p2 = Some k2 /\
       worldOf p2 k2 =
         (if Z.abs (x - c) >? 50
          then if x - c >? 0 then next (worldOf p k) else prev (worldOf p k)
          else worldOf p k) /\
       currentX (touch k2) = c) /\
  (forall (mk : Markup) (x : Z),
     x > 50 ->
     exists p2 k2,
       run (load (Some mk)) [TouchStart x; TouchEnd] = Some p2 /\
       container p2 = Some k2 /\
       worldOf p2 k2 = next (initialWorld mk)).
Proof.
  split.
  - intros mk es p k x Hr Hk c.
    destruct (run_touch es _ _ _ Hr eq_refl) as (k' & Hk' & Ht).
    rewrite Hk in Hk'. injection Hk' as <-.
    assert (Hc : currentX (touch k) = c).
    { subst c. cbn [load container touch initialTouch isDragging currentX] in Ht.
      by rewrite <- Ht. }
    split; [exact Hc|]. split; [unfold touchDiff; cbn; by rewrite Hc|].
    destruct (tap_steps p k x Hk) as (p1 & p2 & k2 & H1 & H2 & Hk2 & _ & Hx & _ & Hw).
    exists p1, p2, k2. rewrite Hc in Hw, Hx. done.
  - intros mk x Hx.
    pose (k0 := {| carouselInstance := None;
                   instance := carousel (initialWorld mk);
                   touch := initialTouch;
                   log := calls (initialWorld mk) |}).
    assert (Hk0 : container (load (Some mk)) = Some k0) by reflexivity.
    assert (Hw0 : worldOf (load (Some mk)) k0 = initialWorld mk).
    { unfold worldOf, k0, initialWorld. cbn [load page_browser instance log].
      by destruct (init _). }
    destruct (tap_steps (load (Some mk)) k0 x Hk0)
      as (p1 & p2 & k2 & H1 & H2 & Hk2 & _ & _ & _ & Hw).
    exists p2, k2. split; [cbn [run]; by rewrite H1, H2|]. split; [exact Hk2|].
    rewrite Hw, Hw0. change (currentX (touch k0)) with 0.
    rewrite Z.sub_0_r.
    destruct (Z.gtb_spec (Z.abs x) 50); [|lia].
    by destruct (Z.gtb_spec x 0); [|lia].
Qed.

(** C10, witness: on the demo page a swipe from 200 to 10 moves to slide 1
    and leaves 10 recorded; once the transition is over, a motionless tap
    at 100 computes 100 - 10 = 90 and moves on to slide 2.  A first tap at
    60 on a fresh page moves to slide 1. *)
Lemma tap_uses_stale_position_witness :
  (exists k, container (after swipeThenRest) = Some k /\
             currentIndex (instance k) = 1 /\ currentX (touch k) = 10) /\
  (exists p2 k2,
     run (after swipeThenRest) [TouchStart 100; TouchEnd] = Some p2 /\
     container p2 = Some k2 /\ currentIndex (instance k2) = 2) /\
  (exists p2 k2,
     run (load (Some demoMarkup)) [TouchStart 60; TouchEnd] = Some p2 /\
     container p2 = Some k2 /\ currentIndex (instance k2) = 1).
Proof.
  destruct tap_uses_stale_position as [Hstale Hfirst].
  assert (Hr : run (load (Some demoMarkup)) swipeThenRest = Some (after swipeThenRest))
    by (vm_compute; reflexivity).
  assert (Hk : exists k, container (after swipeThenRest) = Some k /\
                         currentIndex (instance k) = 1).
  { eexists. split; [vm_compute; reflexivity|reflexivity]. }
  destruct Hk as (k & Hk & Hi).
  destruct (Hstale demoMarkup swipeThenRest _ k 100 Hr Hk)
    as (Hc & _ & p1 & p2 & k2 & H1 & H2 & Hk2 & Hw & _).
  split; [|split].
  - exists k. split; [exact Hk|]. split; [exact Hi|exact Hc].
  - exists p2, k2. split; [cbn [run]; by rewrite H1, H2|]. split; [exact Hk2|].
    change (instance k2) with (carousel (worldOf p2 k2)). rewrite Hw.
    injection Hk as <-. vm_compute. reflexivity.
  - destruct (Hfirst demoMarkup 60 eq_refl) as (q2 & j2 & Hq & Hj & Hw').
    exists q2, j2. split; [exact Hq|]. split; [exact Hj|].
    change (instance j2) with (carousel (worldOf q2 j2)). rewrite Hw'.
    vm_compute. reflexivity.
Defined.
